(** * Parsed elements of the abbreviation expander

    A shallow embedding of [javascript/elements/parsedElements.js]: the
    [ParsedElement] object, its methods, and the two factories the file
    registers under ['parsedElement'] and ['parsedSnippet'].

    JavaScript objects are mutable and shared.  Elements therefore live in a
    store ([Heap]) and refer to one another by location; an attribute object,
    which the source reaches both through the [attributes] array and through
    the [_attr_hash] dictionary, is identified by its position in the array
    (the array only ever grows by [push]).

    The dictionary is a plain object, so it also answers for what
    [Object.prototype] holds, and through the key [__proto__] the code can
    write there.  That part of the global state ([Global]) is an implicit
    argument of every call that adds attributes; a function named [f_global]
    gives the global state that [f] leaves. *)

From Stdlib Require Import ZArith Ascii.
From stdpp Require Import base option list gmap strings.

Local Open Scope string_scope.
Local Open Scope list_scope.

(** ** JavaScript values *)

(** Function objects are named by an index into a table of producers. *)
Definition fid := nat.

(** Locations of [ParsedElement] objects. *)
Definition loc := nat.

Inductive jsval : Type :=
| JUndefined
| JNull
| JBool (b : bool)
| JNum (n : Z)
| JStr (s : string)
| JFun (f : fid).

(** [v || ''] for an argument documented as a String that may be missing. *)
Definition or_empty (v : option string) : string :=
  match v with
  | Some s => s
  | None => ""
  end.

(** Truthiness of a string: only the empty string is falsy. *)
Definition str_truthy (s : string) : bool :=
  match s with
  | EmptyString => false
  | String _ _ => true
  end.

(** Own properties of [Object.prototype] in a standard engine: those of
    ECMA-262, 20.1.3, and the legacy ones of its Annex B.2.2.  An object
    literal [{}] inherits them, so the [in] operator finds them in a
    dictionary that holds no own key of that name. *)
Definition Object_prototype_keys : list string :=
  [ "constructor"; "toString"; "toLocaleString"; "valueOf";
    "hasOwnProperty"; "isPrototypeOf"; "propertyIsEnumerable";
    "__proto__"; "__defineGetter__"; "__defineSetter__";
    "__lookupGetter__"; "__lookupSetter__" ].

(** The one part of the global object graph this code can change and then
    observe: the own property [value] of [Object.prototype], which the legacy
    key [__proto__] gives write access to.  It is unset in a fresh engine. *)
Class Global := { proto_value : option string }.

Definition pristine : Global := {| proto_value := None |}.

(** [Object.prototype] has been given a [value]. *)
Definition polluted `{G : Global} : bool :=
  match proto_value with
  | Some _ => true
  | None => false
  end.

(** The names an empty dictionary answers [in] for: the standard ones, and
    [value] once [Object.prototype] has been given one. *)
Definition inherited `{G : Global} (name : string) : bool :=
  bool_decide (name ∈ Object_prototype_keys)
  || (String.eqb name "value" && polluted).

(** ** External collaborators *)

(** [require('utils')]. *)
Class Utils := {
  replaceUnescapedSymbol : string → string → string → string;
  getCaretPlaceholder : string;
  escapeText : string → string
}.

(** Modelled from the spec: [utils.replaceUnescapedSymbol] is not part of the
    file.  The spec describes it as unescaping a backslash-escaped occurrence
    of the delimiter character to the literal character (escaping marker
    stripped) and replacing every unescaped occurrence by the replacement
    token; all other text is kept. *)
Fixpoint escapeDelimiter (text : string) (delim : ascii) (token : string) : string :=
  match text with
  | EmptyString => EmptyString
  | String c rest =>
      if Ascii.eqb c "\"%char then
        match rest with
        | String d rest' =>
            if Ascii.eqb d delim
            then String delim (escapeDelimiter rest' delim token)
            else String c (escapeDelimiter rest delim token)
        | EmptyString => String c EmptyString
        end
      else if Ascii.eqb c delim
      then token +:+ escapeDelimiter rest delim token
      else String c (escapeDelimiter rest delim token)
  end.

(** Modelled from the spec: the delimiter is a single character; for any other
    symbol the spec says nothing and the text is returned as it is. *)
Definition spec_replaceUnescapedSymbol (text symbol token : string) : string :=
  match symbol with
  | String d EmptyString => escapeDelimiter text d token
  | _ => text
  end.

(** Modelled from the spec: the utility module with the delimiter transform
    above; the caret placeholder token (a stable, reserved text) and the
    literal-insertion escaping are left to the caller. *)
Definition SpecUtils (caret : string) (escape_text : string → string) : Utils :=
  {| replaceUnescapedSymbol := spec_replaceUnescapedSymbol;
     getCaretPlaceholder := caret;
     escapeText := escape_text |}.

(** ** Resources *)

Record Attr := mkAttr { attr_name : string; attr_value : string }.

(** An attribute as a parsed node or a resource lists it: an object with its
    own [name] and [value] properties; the value may be undefined. *)
Record SrcAttr := mkSrcAttr { src_name : string; src_value : option string }.

(** Modelled from the spec: the entries [require('elements')] creates are not
    part of the file.  The spec gives three variants: an element definition
    with a name and attributes, a snippet with literal data, and a reference
    whose data names another definition. *)
Inductive DataElement : Type :=
| ElementDef (name : string) (attrs : option (list SrcAttr))
| SnippetDef (data : string)
| ReferenceDef (data : string).

(** Property reads on a resource; a property the variant lacks is
    [undefined]. *)
Definition res_name (r : DataElement) : option string :=
  match r with
  | ElementDef n _ => Some n
  | _ => None
  end.

Definition res_attributes (r : DataElement) : option (list SrcAttr) :=
  match r with
  | ElementDef _ a => a
  | _ => None
  end.

Definition res_data (r : DataElement) : option string :=
  match r with
  | ElementDef _ _ => None
  | SnippetDef d => Some d
  | ReferenceDef d => Some d
  end.

(** Modelled from the spec: [elems.create('element', name)] builds an ad-hoc
    element definition from a name; it lists no attributes. *)
Definition create_element (s : string) : DataElement := ElementDef s None.

(** Modelled from the spec: [elems.create('snippet', text)] builds a snippet
    definition whose data is the text. *)
Definition create_snippet (s : string) : DataElement := SnippetDef s.

(** [elems.is(resource, 'reference')] *)
Definition is_reference (r : DataElement) : bool :=
  match r with
  | ReferenceDef _ => true
  | _ => false
  end.

(** [require('resources')]: a read-only store. *)
Class Resources := {
  getAbbreviation : string → option string → option DataElement;
  getSnippet : string → option string → string
}.

(** The [resource] argument of a factory: missing, a name, or an entry. *)
Inductive ResourceArg : Type :=
| RAbsent
| RName (s : string)
| REntry (r : DataElement).

(** ** Parsed tree nodes (input) *)

Record TreeNode := mkTreeNode {
  node_name : option string;
  node_count : option Z;
  node_text : jsval;
  node_is_repeating : bool;
  node_has_implict_name : bool;
  node_attributes : option (list SrcAttr)
}.

(** ** The element object *)

Inductive Content : Type :=
| Literal (s : string)
| Deferred (f : fid).

Record ParsedElement := mkParsedElement {
  _abbr : option DataElement;
  name : option string;
  real_name : option string;
  count : Z;
  syntax : string;
  _content : Content;
  _paste_content : string;
  repeat_by_lines : bool;
  is_repeating : bool;
  parent : option loc;
  has_implicit_name : bool;
  children : list loc;
  options : gmap string jsval;
  attributes : option (list Attr);
  _attr_hash : option (gmap string nat);
  value : option string
}.

(** Field assignments. *)
Definition set_attrs (al : list Attr) (ah : gmap string nat) (e : ParsedElement) : ParsedElement :=
  mkParsedElement (_abbr e) (name e) (real_name e) (count e) (syntax e)
    (_content e) (_paste_content e) (repeat_by_lines e) (is_repeating e)
    (parent e) (has_implicit_name e) (children e) (options e)
    (Some al) (Some ah) (value e).

Definition set_content (c : Content) (e : ParsedElement) : ParsedElement :=
  mkParsedElement (_abbr e) (name e) (real_name e) (count e) (syntax e)
    c (_paste_content e) (repeat_by_lines e) (is_repeating e)
    (parent e) (has_implicit_name e) (children e) (options e)
    (attributes e) (_attr_hash e) (value e).

Definition set_paste_content (s : string) (e : ParsedElement) : ParsedElement :=
  mkParsedElement (_abbr e) (name e) (real_name e) (count e) (syntax e)
    (_content e) s (repeat_by_lines e) (is_repeating e)
    (parent e) (has_implicit_name e) (children e) (options e)
    (attributes e) (_attr_hash e) (value e).

Definition set_parent (p : option loc) (e : ParsedElement) : ParsedElement :=
  mkParsedElement (_abbr e) (name e) (real_name e) (count e) (syntax e)
    (_content e) (_paste_content e) (repeat_by_lines e) (is_repeating e)
    p (has_implicit_name e) (children e) (options e)
    (attributes e) (_attr_hash e) (value e).

Definition set_children (cs : list loc) (e : ParsedElement) : ParsedElement :=
  mkParsedElement (_abbr e) (name e) (real_name e) (count e) (syntax e)
    (_content e) (_paste_content e) (repeat_by_lines e) (is_repeating e)
    (parent e) (has_implicit_name e) cs (options e)
    (attributes e) (_attr_hash e) (value e).

Definition set_value (v : option string) (e : ParsedElement) : ParsedElement :=
  mkParsedElement (_abbr e) (name e) (real_name e) (count e) (syntax e)
    (_content e) (_paste_content e) (repeat_by_lines e) (is_repeating e)
    (parent e) (has_implicit_name e) (children e) (options e)
    (attributes e) (_attr_hash e) v.

(** ** Methods that touch only [this] *)

Section Methods.
Context `{U : Utils}.

(** The merge [addAttribute] applies to the attribute object it found under
    an own key of the dictionary. *)
Definition merge_attr (name value : string) (a : Attr) : Attr :=
  if String.eqb name "class"
  then mkAttr (attr_name a)
         (attr_value a +:+ (if str_truthy (attr_value a) then " " else "") +:+ value)
  else mkAttr (attr_name a) value.

(** [addAttribute(name, value)], as a step from the element and the global
    state to both after the call.  The dictionary is an object literal, so the
    test [name in this._attr_hash] succeeds in two ways:
    - the name is an own key: [a] is the attribute object pushed at the
      recorded position, and the merge changes it in place;
    - the name is none of the own keys but one that [{}] inherits: [a] is what
      is found up the prototype chain and the assignment to its [value] lands
      there, so the element keeps its attributes as they are.  Under
      [__proto__] that object is [Object.prototype] itself, which gets the
      [value]; under [value] it is a string, on which the assignment is
      dropped; under the other names it is a built-in function, out of reach
      of any later test.
    Otherwise a new attribute object is recorded and pushed. *)
Definition addAttribute_run `{G : Global} (name : string) (value : option string)
    (this : ParsedElement) : ParsedElement * Global :=
  let attrs := default [] (attributes this) in
  let hash := default ∅ (_attr_hash this) in
  let value := replaceUnescapedSymbol (or_empty value) "|" getCaretPlaceholder in
  match hash !! name with
  | Some i => (set_attrs (alter (merge_attr name value) i attrs) hash this, G)
  | None =>
      if inherited name
      then (set_attrs attrs hash this,
            if String.eqb name "__proto__"
            then {| proto_value := Some value |}
            else G)
      else (set_attrs (attrs ++ [mkAttr name value])
                      (<[name := length attrs]> hash) this, G)
  end.

(** The element after [addAttribute(name, value)]. *)
Definition addAttribute `{G : Global} (name : string) (value : option string)
    (this : ParsedElement) : ParsedElement :=
  (addAttribute_run name value this).1.

(** The global state after [addAttribute(name, value)]. *)
Definition addAttribute_global `{G : Global} (name : string)
    (value : option string) (this : ParsedElement) : Global :=
  (addAttribute_run name value this).2.

(** [_.each] walks the array front to back; every call runs in the global
    state the one before it left. *)
Fixpoint copy_each (G : Global) (l : list SrcAttr) (this : ParsedElement)
    : ParsedElement * Global :=
  match l with
  | [] => (this, G)
  | a :: l' =>
      copy_each (@addAttribute_global G (src_name a) (src_value a) this) l'
                (@addAttribute G (src_name a) (src_value a) this)
  end.

(** [copyAttributes(node)] *)
Definition copyAttributes_run `{G : Global} (src : option (list SrcAttr))
    (this : ParsedElement) : ParsedElement * Global :=
  match src with
  | Some l => copy_each G l this
  | None => (this, G)
  end.

(** The element after [copyAttributes(node)]. *)
Definition copyAttributes `{G : Global} (src : option (list SrcAttr))
    (this : ParsedElement) : ParsedElement :=
  (copyAttributes_run src this).1.

(** The global state after [copyAttributes(node)]. *)
Definition copyAttributes_global `{G : Global} (src : option (list SrcAttr))
    (this : ParsedElement) : Global :=
  (copyAttributes_run src this).2.

(** [setContent(data)] *)
Definition setContent (data : jsval) (this : ParsedElement) : ParsedElement :=
  match data with
  | JStr s =>
      set_content (Literal (replaceUnescapedSymbol s "|" getCaretPlaceholder)) this
  | JFun f => set_content (Deferred f) this
  | _ => this
  end.

(** [setPasteContent(val)] *)
Definition setPasteContent (val : string) (this : ParsedElement) : ParsedElement :=
  set_paste_content (escapeText val) this.

(** [getPasteContent()] *)
Definition getPasteContent (this : ParsedElement) : string :=
  _paste_content this.

(** [hasChildren()] *)
Definition hasChildren (this : ParsedElement) : bool :=
  negb (Nat.eqb (length (children this)) 0).

(** The constructor [new ParsedElement(node, syntax, resource, options)].
    [_.extend] is underscore's and not part of the file; as the spec has it,
    the options are a copy of the bag handed in, empty if there is none. *)
Definition new_ParsedElement (node : TreeNode) (syn : string)
    (resource : option DataElement) (opts : option (gmap string jsval))
    : ParsedElement :=
  let cnt := match node_count node with
             | Some c => if Z.eqb c 0 then 1%Z else c
             | None => 1%Z
             end in
  let rep := match node_count node with
             | Some c => Z.ltb 1 c
             | None => false
             end in
  setContent (node_text node)
    {| _abbr := resource;
       name := match resource with
               | Some r => res_name r
               | None => node_name node
               end;
       real_name := node_name node;
       count := cnt;
       syntax := syn;
       _content := Literal "";
       _paste_content := "";
       repeat_by_lines := node_is_repeating node;
       is_repeating := rep;
       parent := None;
       has_implicit_name := node_has_implict_name node;
       children := [];
       options := default ∅ opts;
       attributes := None;
       _attr_hash := None;
       value := None |}.

End Methods.

(** ** The store of elements *)

Abbreviation Heap := (gmap loc ParsedElement).

(** Outcome of a method that loops or dereferences: a value, a [TypeError]
    (a property read on something that is no element), or no answer within the
    given number of loop iterations. *)
Inductive outcome (A : Type) : Type :=
| Done (a : A)
| TypeError
| OutOfFuel.
Arguments Done {A} a.
Arguments TypeError {A}.
Arguments OutOfFuel {A}.

(** A table of function objects: a content producer receives the element it is
    called on and may read and write the store. *)
Definition Producers := fid → loc → Heap → jsval * Heap.

(** Runs a method that touches only [this] on the object at a location. *)
Definition on_this (f : ParsedElement → ParsedElement) (this : loc) (h : Heap)
    : option Heap :=
  match h !! this with
  | Some e => Some (<[this := f e]> h)
  | None => None
  end.

(** Allocation of a fresh object. *)
Definition alloc (e : ParsedElement) (h : Heap) : loc * Heap :=
  let l := fresh (dom h) in (l, <[l := e]> h).

(** [addChild(elem)]: the two writes happen in source order, on the same store,
    so [elem] may well be [this]. *)
Definition addChild (this elem : loc) (h : Heap) : option Heap :=
  match h !! elem with
  | Some c =>
      let h1 := <[elem := set_parent (Some this) c]> h in
      match h1 !! this with
      | Some t => Some (<[this := set_children (children t ++ [elem]) t]> h1)
      | None => None
      end
  | None => None
  end.

(** [getContent()] *)
Definition getContent (P : Producers) (this : loc) (h : Heap)
    : option (jsval * Heap) :=
  match h !! this with
  | Some e =>
      match _content e with
      | Deferred f => Some (P f this h)
      | Literal s => Some (JStr (if str_truthy s then s else ""), h)
      end
  | None => None
  end.

(** The [while] loop of [findDeepestChild]: [_.last] of a non-empty array. *)
Fixpoint deepest_loop (fuel : nat) (h : Heap) (deepestChild : loc) : outcome loc :=
  match fuel with
  | O => OutOfFuel
  | S fuel' =>
      match h !! deepestChild with
      | Some e =>
          match last (children e) with
          | Some c => deepest_loop fuel' h c
          | None => Done deepestChild
          end
      | None => TypeError
      end
  end.

(** [findDeepestChild()]; [None] is [null]. *)
Definition findDeepestChild (fuel : nat) (this : loc) (h : Heap)
    : outcome (option loc) :=
  match h !! this with
  | Some e =>
      if Nat.eqb (length (children e)) 0 then Done None
      else match deepest_loop fuel h this with
           | Done d => Done (Some d)
           | TypeError => TypeError
           | OutOfFuel => OutOfFuel
           end
  | None => TypeError
  end.

(** ** The factories *)

(** A request sent to the resource store. *)
Inductive Query : Type :=
| QAbbreviation (syn : string) (name : option string)
| QSnippet (syn : string) (name : option string).

(** A computation that consults the store: its result and the requests it
    made, in order. *)
Definition Lookup (A : Type) : Type := A * list Query.

Definition lret {A} (a : A) : Lookup A := (a, []).

Definition lbind {A B} (m : Lookup A) (k : A → Lookup B) : Lookup B :=
  let (b, l2) := k (fst m) in (b, snd m ++ l2).

Notation "x ⇐ m ;; k" := (lbind m (λ x, k))
  (at level 100, m at next level, right associativity).

Section Factories.
Context `{U : Utils} `{G : Global} `{R : Resources}.

Definition res_getAbbreviation (syn : string) (n : option string)
    : Lookup (option DataElement) :=
  (getAbbreviation syn n, [QAbbreviation syn n]).

Definition res_getSnippet (syn : string) (n : option string) : Lookup string :=
  (getSnippet syn n, [QSnippet syn n]).

(** Truthiness of a name that may be missing. *)
Definition name_truthy (n : option string) : bool :=
  match n with
  | Some s => str_truthy s
  | None => false
  end.

(** The factory registered as ['parsedElement'], with the global state it
    leaves. *)
Definition parsedElement_run (node : TreeNode) (syn : string)
    (resource : ResourceArg) (opts : option (gmap string jsval))
    : Lookup (ParsedElement * Global) :=
  let resource :=
    match resource with
    | RName s => Some (create_element s)
    | REntry r => Some r
    | RAbsent => None
    end in
  resource ⇐ match resource with
             | None =>
                 if name_truthy (node_name node)
                 then res_getAbbreviation syn (node_name node)
                 else lret None
             | Some r => lret (Some r)
             end ;;
  resource ⇐ match resource with
             | Some r =>
                 if is_reference r
                 then res_getAbbreviation syn (res_data r)
                 else lret (Some r)
             | None => lret None
             end ;;
  let elem := new_ParsedElement node syn resource opts in
  let defaults := match _abbr elem with
                  | Some a => copyAttributes_run (res_attributes a) elem
                  | None => (elem, G)
                  end in
  lret (@copyAttributes_run U defaults.2 (node_attributes node) defaults.1).

(** The element the ['parsedElement'] factory returns, with the requests it
    made. *)
Definition parsedElement (node : TreeNode) (syn : string)
    (resource : ResourceArg) (opts : option (gmap string jsval))
    : Lookup ParsedElement :=
  ((parsedElement_run node syn resource opts).1.1,
   (parsedElement_run node syn resource opts).2).

Definition parsedElement_global (node : TreeNode) (syn : string)
    (resource : ResourceArg) (opts : option (gmap string jsval)) : Global :=
  (parsedElement_run node syn resource opts).1.2.

(** The factory registered as ['parsedSnippet'], with the global state it
    leaves.  The delimiter transform is described for texts only; a resource
    without [data] leaves [value] unset. *)
Definition parsedSnippet_run (node : TreeNode) (syn : string)
    (resource : ResourceArg) (opts : option (gmap string jsval))
    : Lookup (ParsedElement * Global) :=
  let resource :=
    match resource with
    | RName s => Some (create_snippet s)
    | REntry r => Some r
    | RAbsent => None
    end in
  let elem := new_ParsedElement node syn resource opts in
  data ⇐ match resource with
         | Some r => lret (res_data r)
         | None => (d ⇐ res_getSnippet syn (name elem) ;; lret (Some d))
         end ;;
  let elem :=
    set_value
      ((λ d, replaceUnescapedSymbol d "|" getCaretPlaceholder) <$> data) elem in
  let with_id := addAttribute_run "id" (Some getCaretPlaceholder) elem in
  let with_class :=
    @addAttribute_run U with_id.2 "class" (Some getCaretPlaceholder) with_id.1 in
  lret (@copyAttributes_run U with_class.2 (node_attributes node) with_class.1).

(** The element the ['parsedSnippet'] factory returns, with the requests it
    made. *)
Definition parsedSnippet (node : TreeNode) (syn : string)
    (resource : ResourceArg) (opts : option (gmap string jsval))
    : Lookup ParsedElement :=
  ((parsedSnippet_run node syn resource opts).1.1,
   (parsedSnippet_run node syn resource opts).2).

Definition parsedSnippet_global (node : TreeNode) (syn : string)
    (resource : ResourceArg) (opts : option (gmap string jsval)) : Global :=
  (parsedSnippet_run node syn resource opts).1.2.

End Factories.


(** ** Vocabulary of the properties *)

Definition attrs_of (e : ParsedElement) : list Attr := default [] (attributes e).

Definition hash_of (e : ParsedElement) : gmap string nat := default ∅ (_attr_hash e).

(** The attribute entries of an element that carry a given name. *)
Definition attrs_named (n : string) (e : ParsedElement) : list Attr :=
  filter (λ a, attr_name a = n) (attrs_of e).

(** The dictionary maps exactly the names in the array, each to the position
    of its entry. *)
Record attrs_ok (e : ParsedElement) : Prop := {
  hash_sound : ∀ n i, hash_of e !! n = Some i →
               ∃ v, attrs_of e !! i = Some (mkAttr n v);
  hash_complete : ∀ i a, attrs_of e !! i = Some a →
                  hash_of e !! attr_name a = Some i
}.

(** The text [addAttribute] stores or merges for an argument. *)
Definition escaped `{U : Utils} (v : option string) : string :=
  replaceUnescapedSymbol (or_empty v) "|" getCaretPlaceholder.

(** The global state only gains: what [Object.prototype] has been given, it
    keeps. *)
Definition grows (G G' : Global) : Prop :=
  @polluted G = true → @polluted G' = true.

(** The value a run of [addAttribute] calls leaves under a name that is
    present: every entry of that name in [l] is merged in, in order. *)
Definition merged_value `{U : Utils} (n : string) (old : string) (l : list SrcAttr)
    : string :=
  foldl (λ acc a,
           if decide (src_name a = n)
           then attr_value (merge_attr n (escaped (src_value a)) (mkAttr n acc))
           else acc)
        old l.

(** The last entry of a given name in an attribute list carries value [v]. *)
Definition names_last (n : string) (v : option string) (l : list SrcAttr) : Prop :=
  ∃ l1 l2, l = l1 ++ mkSrcAttr n v :: l2 ∧ ∀ a, a ∈ l2 → src_name a ≠ n.

(** No entry of an attribute list has the given name. *)
Definition unnamed (n : string) (l : list SrcAttr) : Prop :=
  ∀ a, a ∈ l → src_name a ≠ n.

(** Every field of an element except the two attribute structures. *)
Definition core (e : ParsedElement) :=
  (_abbr e, name e, real_name e, count e, syntax e, _content e,
   _paste_content e, repeat_by_lines e, is_repeating e, parent e,
   has_implicit_name e, children e, options e, value e).

(** The only entry of a given name in an attribute list carries value [v]. *)
Definition names_once (n : string) (v : option string) (l : list SrcAttr) : Prop :=
  ∃ l1 l2, l = l1 ++ mkSrcAttr n v :: l2 ∧ unnamed n l1 ∧ unnamed n l2.

(** The value an element holds under a name, if it has an entry for it. *)
Definition current (n : string) (e : ParsedElement) : option string :=
  attr_value <$> head (attrs_named n e).

(** The value a run of [addAttribute] calls leaves under a name, starting from
    the value [cur] (or from no entry): the first entry of that name creates
    it, every later one is merged in. *)
Definition layer `{U : Utils} (n : string) (cur : option string) (l : list SrcAttr)
    : option string :=
  foldl (λ acc a,
           if decide (src_name a = n)
           then Some (match acc with
                      | Some old =>
                          attr_value (merge_attr n (escaped (src_value a)) (mkAttr n old))
                      | None => escaped (src_value a)
                      end)
           else acc)
        cur l.

(** A call a client makes on an element of the store while it assembles the
    output tree. *)
Inductive Call : Type :=
| CallAddChild (this elem : loc)
| CallAddAttribute (this : loc) (name : string) (value : option string)
| CallCopyAttributes (this : loc) (src : option (list SrcAttr))
| CallSetContent (this : loc) (data : jsval)
| CallSetPasteContent (this : loc) (val : string).

Definition perform `{U : Utils} `{G : Global} (c : Call) (h : Heap) : option Heap :=
  match c with
  | CallAddChild this elem => addChild this elem h
  | CallAddAttribute this n v => on_this (addAttribute n v) this h
  | CallCopyAttributes this src => on_this (copyAttributes src) this h
  | CallSetContent this data => on_this (setContent data) this h
  | CallSetPasteContent this val => on_this (setPasteContent val) this h
  end.

(** The global state a call leaves: only the calls that add attributes can
    change it. *)
Definition perform_global `{U : Utils} `{G : Global} (c : Call) (h : Heap) : Global :=
  match c with
  | CallAddAttribute this n v =>
      match h !! this with
      | Some e => addAttribute_global n v e
      | None => G
      end
  | CallCopyAttributes this src =>
      match h !! this with
      | Some e => copyAttributes_global src e
      | None => G
      end
  | _ => G
  end.

(** A sequence of calls; each runs in the global state the one before it
    left. *)
Fixpoint perform_all `{U : Utils} `{G : Global} (cs : list Call) (h : Heap)
    : option Heap :=
  match cs with
  | [] => Some h
  | c :: cs' =>
      match perform c h with
      | Some h' => perform_all (G := perform_global c h) cs' h'
      | None => None
      end
  end.

(** The invariant on the repeat count. *)
Definition count_ok (e : ParsedElement) : Prop :=
  (1 ≤ count e)%Z ∧ (is_repeating e = true ↔ (1 < count e)%Z).

(** [follows_last h n a d]: [n] steps from [a], each to the last child of the
    element reached, end in [d]. *)
Inductive follows_last (h : Heap) : nat → loc → loc → Prop :=
| follows_here a : follows_last h 0 a a
| follows_step n a e c d :
    h !! a = Some e → last (children e) = Some c →
    follows_last h n c d → follows_last h (S n) a d.

Definition childless (h : Heap) (d : loc) : Prop :=
  ∃ e, h !! d = Some e ∧ children e = [].

(** A store without cycles: every child is an element of the store and ranks
    strictly below its parent. *)
Definition ranked (h : Heap) (rank : loc → nat) : Prop :=
  ∀ l e c, h !! l = Some e → c ∈ children e →
           is_Some (h !! c) ∧ rank c < rank l.

Definition acyclic (h : Heap) : Prop := ∃ rank, ranked h rank.

(** Every element of the store has its attribute structures in step. *)
Definition heap_attrs_ok (h : Heap) : Prop :=
  ∀ l e, h !! l = Some e → attrs_ok e.

(** Every parent pointer is backed by an entry: an element that names a
    parent is among that parent's children. *)
Definition parents_listed (h : Heap) : Prop :=
  ∀ c ec p, h !! c = Some ec → parent ec = Some p →
            ∃ ep, h !! p = Some ep ∧ c ∈ children ep.

(** The calls that assign the content, or the paste content, of an element. *)
Definition is_setContent_on (l : loc) (c : Call) : bool :=
  match c with
  | CallSetContent this _ => Nat.eqb this l
  | _ => false
  end.

Definition is_setPasteContent_on (l : loc) (c : Call) : bool :=
  match c with
  | CallSetPasteContent this _ => Nat.eqb this l
  | _ => false
  end.

(** A producer that returns [self.children.length]. *)
Definition children_length (self : loc) (h : Heap) : jsval * Heap :=
  (match h !! self with
   | Some e => JNum (Z.of_nat (length (children e)))
   | None => JUndefined
   end, h).

(** ** Sample inputs *)

Module Samples.

(** A placeholder token without pipe or backslash. *)
Definition caret : string := "${0}".

Definition utils : Utils := SpecUtils caret id.

(** A store with one alias: [bq] refers to [blockquote]. *)
Definition store : Resources :=
  {| getAbbreviation := λ _ n,
       if decide (n = Some "bq") then Some (ReferenceDef "blockquote")
       else if decide (n = Some "blockquote")
            then Some (ElementDef "blockquote" None)
            else None;
     getSnippet := λ _ _, "" |}.

Definition node (n : string) (attrs : option (list SrcAttr)) : TreeNode :=
  mkTreeNode (Some n) None JUndefined false false attrs.

(** A node repeated three times. *)
Definition li3 : TreeNode :=
  mkTreeNode (Some "li") (Some 3%Z) JUndefined false false None.

(** A fresh [div] element. *)
Definition div : ParsedElement :=
  @new_ParsedElement utils (node "div" None) "html" None None.

(** A table whose every function is [children_length]. *)
Definition producers : Producers := λ _, children_length.

(** Four fresh elements at locations 0 to 3. *)
Definition four : Heap :=
  <[0 := div]> (<[1 := div]> (<[2 := div]> (<[3 := div]> ∅))).

(** The store a call leaves, for calls known to succeed. *)
Definition after (o : option Heap) : Heap := default ∅ o.

(** [root.addChild(A); A.addChild(B); B.addChild(C)] on the four. *)
Definition chain : Heap :=
  after (addChild 2 3 (after (addChild 1 2 (after (addChild 0 1 four))))).

(** The root has children [1] and [2]; [1] has the child [3]. *)
Definition fork : Heap :=
  after (addChild 1 3 (after (addChild 0 2 (after (addChild 0 1 four))))).

(** A store that defines the link element with two default attributes. *)
Definition links : Resources :=
  {| getAbbreviation := λ _ n,
       if decide (n = Some "a")
       then Some (ElementDef "a"
                    (Some [mkSrcAttr "href" (Some ""); mkSrcAttr "class" (Some "link")]))
       else if decide (n = Some "lnk") then Some (ReferenceDef "nowhere")
       else None;
     getSnippet := λ _ _, "<!-- | -->" |}.

(** One [li] element, and four calls on it. *)
Definition li_calls : list Call :=
  [ CallAddAttribute 0 "id" (Some "x"); CallSetContent 0 (JStr "t");
    CallSetPasteContent 0 "p"; CallAddChild 0 0 ].

Definition li_store : Heap :=
  <[0 := @new_ParsedElement utils li3 "html" None None]> ∅.

(** One [div] element with the text ["t"], and three calls on it. *)
Definition text_store : Heap :=
  <[0 := @setContent utils (JStr "t") div]> ∅.

Definition text_calls : list Call :=
  [ CallAddAttribute 0 "id" (Some "x"); CallSetPasteContent 0 "p";
    CallAddChild 0 0 ].

(** The root of the chain, as the store holds it. *)
Definition chain_root : ParsedElement := default div (chain !! 0).

(** An element whose content is a producer, and a second element. *)
Definition counting : Heap :=
  <[0 := @setContent utils (JFun 7) div]> (<[1 := div]> ∅).

(** An element added as its own child. *)
Definition loop : Heap := after (addChild 0 0 four).

End Samples.


(** * Properties *)

(** ** Attributes: the array and the dictionary stay in step *)

Section ListFacts.
Context {A : Type} (P : A → Prop) `{!∀ x, Decision (P x)}.

Lemma filter_none (l : list A) :
  (∀ x, x ∈ l → ¬ P x) → filter P l = [].
Proof.
  induction l as [|x l IH]; intros Hl; [done|].
  rewrite filter_cons_False; [|apply Hl; left].
  apply IH. intros y Hy. apply Hl. by right.
Qed.

Lemma filter_sole (l : list A) (i : nat) (a : A) :
  l !! i = Some a → P a →
  (∀ j b, l !! j = Some b → P b → j = i) →
  filter P l = [a].
Proof.
  revert i. induction l as [|x l IH]; intros i Hi Pa Huniq; [done|].
  destruct i as [|i]; simpl in Hi.
  - injection Hi as ->. rewrite filter_cons_True; [|done].
    f_equal. apply filter_none. intros y Hy Py.
    apply list_elem_of_lookup in Hy as [j Hj].
    specialize (Huniq (S j) y Hj Py). discriminate.
  - rewrite filter_cons_False.
    + apply (IH i); [done|done|].
      intros j b Hj Pb. specialize (Huniq (S j) b Hj Pb). lia.
    + intros Px. specialize (Huniq 0 x eq_refl Px). discriminate.
Qed.
End ListFacts.

Lemma merge_attr_name n v a : attr_name (merge_attr n v a) = attr_name a.
Proof. unfold merge_attr. by destruct (String.eqb n "class"). Qed.

Lemma attrs_of_set_attrs al ah e : attrs_of (set_attrs al ah e) = al.
Proof. done. Qed.

Lemma hash_of_set_attrs al ah e : hash_of (set_attrs al ah e) = ah.
Proof. done. Qed.

(** What the entries named [n] are, read off the dictionary. *)
Lemma attrs_named_spec e n :
  attrs_ok e →
  attrs_named n e =
    match hash_of e !! n with
    | Some i => match attrs_of e !! i with Some a => [a] | None => [] end
    | None => []
    end.
Proof.
  intros [Hs Hc]. unfold attrs_named.
  destruct (hash_of e !! n) as [i|] eqn:Hn.
  - destruct (Hs n i Hn) as [v Hv]. rewrite Hv.
    apply (filter_sole _ _ i); [done|done|].
    intros j b Hj <-. apply Hc in Hj. congruence.
  - apply filter_none. intros a Ha <-.
    apply list_elem_of_lookup in Ha as [j Hj]. apply Hc in Hj. congruence.
Qed.

Lemma attrs_named_nil e n :
  attrs_ok e → attrs_named n e = [] → hash_of e !! n = None.
Proof.
  intros Hok. rewrite (attrs_named_spec e n Hok).
  destruct (hash_of e !! n) as [i|] eqn:Hn; [|done].
  destruct (hash_sound e Hok n i Hn) as [v ->]. done.
Qed.

Lemma attrs_named_elem e n a :
  attrs_ok e → a ∈ attrs_of e → attr_name a = n → attrs_named n e = [a].
Proof.
  intros Hok Ha <-. apply list_elem_of_lookup in Ha as [i Hi].
  rewrite (attrs_named_spec e _ Hok), (hash_complete e Hok i a Hi), Hi. done.
Qed.

(** Attribute names never repeat. *)
Lemma attrs_ok_NoDup e : attrs_ok e → NoDup (attr_name <$> attrs_of e).
Proof.
  intros [_ Hc]. apply NoDup_alt. intros i j n Hi Hj.
  apply list_lookup_fmap_Some_1 in Hi as (a & -> & Ha).
  apply list_lookup_fmap_Some_1 in Hj as (b & Hab & Hb).
  apply Hc in Ha, Hb. congruence.
Qed.

Section AttributeFacts.
Context `{U : Utils} `{G : Global}.

Lemma addAttribute_present e n v i :
  hash_of e !! n = Some i →
  attrs_of (addAttribute n v e) = alter (merge_attr n (escaped v)) i (attrs_of e)
  ∧ hash_of (addAttribute n v e) = hash_of e.
Proof.
  intros Hn. unfold addAttribute, addAttribute_run. fold (attrs_of e) (hash_of e).
  by rewrite Hn.
Qed.

Lemma addAttribute_inherited e n v :
  hash_of e !! n = None → inherited n = true →
  attrs_of (addAttribute n v e) = attrs_of e
  ∧ hash_of (addAttribute n v e) = hash_of e.
Proof.
  intros Hn Hi. unfold addAttribute, addAttribute_run. fold (attrs_of e) (hash_of e).
  by rewrite Hn, Hi.
Qed.

Lemma addAttribute_new e n v :
  hash_of e !! n = None → inherited n = false →
  attrs_of (addAttribute n v e) = attrs_of e ++ [mkAttr n (escaped v)]
  ∧ hash_of (addAttribute n v e) = <[n := length (attrs_of e)]> (hash_of e).
Proof.
  intros Hn Hi. unfold addAttribute, addAttribute_run. fold (attrs_of e) (hash_of e).
  by rewrite Hn, Hi.
Qed.

(** The constructor leaves both structures unset. *)
Lemma new_ParsedElement_attrs_ok node syn r opts :
  attrs_ok (new_ParsedElement node syn r opts).
Proof.
  assert (Hno : attributes (new_ParsedElement node syn r opts) = None
                ∧ _attr_hash (new_ParsedElement node syn r opts) = None).
  { unfold new_ParsedElement, setContent. by destruct (node_text node). }
  destruct Hno as [Ha Hh].
  split; unfold attrs_of, hash_of; rewrite ?Ha, ?Hh; simpl; intros; simplify_eq.
Qed.

Lemma addAttribute_attrs_ok e n v :
  attrs_ok e → attrs_ok (addAttribute n v e).
Proof.
  intros [Hs Hc].
  destruct (hash_of e !! n) as [i|] eqn:Hn.
  - destruct (addAttribute_present e n v i Hn) as [Ea Eh].
    split; rewrite Ea, Eh.
    + intros m j Hm. destruct (Hs m j Hm) as [w Hw].
      destruct (decide (i = j)) as [->|Hij].
      * rewrite list_lookup_alter_eq, Hw. simpl.
        exists (attr_value (merge_attr n (escaped v) (mkAttr m w))).
        f_equal. pose proof (merge_attr_name n (escaped v) (mkAttr m w)) as Hname.
        destruct (merge_attr n (escaped v) (mkAttr m w)). simpl in *. by subst.
      * rewrite list_lookup_alter_ne by done. eauto.
    + intros j a. destruct (decide (i = j)) as [->|Hij].
      * rewrite list_lookup_alter_eq.
        destruct (attrs_of e !! j) as [b|] eqn:Hb; [|done].
        simpl. intros [= <-]. rewrite merge_attr_name. by apply Hc.
      * rewrite list_lookup_alter_ne by done. apply Hc.
  - destruct (inherited n) eqn:Hin.
    + destruct (addAttribute_inherited e n v Hn Hin) as [Ea Eh].
      split; rewrite Ea, Eh; done.
    + destruct (addAttribute_new e n v Hn Hin) as [Ea Eh].
      split; rewrite Ea, Eh.
      * intros m j. destruct (decide (n = m)) as [->|Hnm].
        -- rewrite lookup_insert_eq. intros [= <-].
           exists (escaped v). by rewrite list_lookup_middle.
        -- rewrite lookup_insert_ne by done. intros Hm.
           destruct (Hs m j Hm) as [w Hw]. exists w.
           by apply lookup_app_l_Some.
      * intros j a Hj. apply lookup_snoc_Some in Hj as [[Hlt Hj]|[-> <-]].
        -- pose proof (Hc j a Hj) as Hh.
           rewrite lookup_insert_ne; [done|]. intros Heq. rewrite <- Heq in Hh. congruence.
        -- simpl. by rewrite lookup_insert_eq.
Qed.

(** The global state after a call: unchanged, unless the name is the legacy
    key, in which case [Object.prototype] has a [value] from then on. *)
Lemma addAttribute_global_other e n v :
  n ≠ "__proto__" → addAttribute_global n v e = G.
Proof.
  intros Hn. unfold addAttribute_global, addAttribute_run.
  destruct (default ∅ (_attr_hash e) !! n); [done|].
  destruct (inherited n); [|done]. simpl.
  apply String.eqb_neq in Hn. by rewrite Hn.
Qed.

Lemma addAttribute_grows e n v : grows G (addAttribute_global n v e).
Proof.
  unfold grows, addAttribute_global, addAttribute_run.
  destruct (default ∅ (_attr_hash e) !! n); [done|].
  destruct (inherited n); [|done]. simpl.
  by destruct (String.eqb n "__proto__").
Qed.

End AttributeFacts.

Lemma grows_refl (G : Global) : grows G G.
Proof. by intros H. Qed.

Lemma grows_trans (G1 G2 G3 : Global) : grows G1 G2 → grows G2 G3 → grows G1 G3.
Proof. intros H12 H23 H. by apply H23, H12. Qed.

(** A name that is not inherited in a later state was not inherited before. *)
Lemma inherited_grows (G G' : Global) (n : string) :
  grows G G' → @inherited G' n = false → @inherited G n = false.
Proof.
  unfold grows, inherited. intros Hg.
  destruct (bool_decide (n ∈ Object_prototype_keys)); [done|]. simpl.
  destruct (String.eqb n "value"); [|done]. simpl.
  destruct (@polluted G); [|done]. by rewrite Hg.
Qed.

Section CopyFacts.
Context `{U : Utils}.

Lemma copyAttributes_nil (G : Global) e : @copyAttributes U G (Some []) e = e.
Proof. done. Qed.

Lemma copyAttributes_cons (G : Global) a l e :
  @copyAttributes U G (Some (a :: l)) e
  = @copyAttributes U (@addAttribute_global U G (src_name a) (src_value a) e)
      (Some l) (@addAttribute U G (src_name a) (src_value a) e).
Proof. done. Qed.

Lemma copyAttributes_global_cons (G : Global) a l e :
  @copyAttributes_global U G (Some (a :: l)) e
  = @copyAttributes_global U (@addAttribute_global U G (src_name a) (src_value a) e)
      (Some l) (@addAttribute U G (src_name a) (src_value a) e).
Proof. done. Qed.

(** What every [addAttribute] keeps, [copyAttributes] keeps. *)
Lemma copyAttributes_keeps (P : ParsedElement → Global → Prop) :
  (∀ G n v e, P e G → P (@addAttribute U G n v e) (@addAttribute_global U G n v e)) →
  ∀ src G e, P e G →
    P (@copyAttributes U G src e) (@copyAttributes_global U G src e).
Proof.
  intros Hstep [l|] G e He; [|done].
  revert G e He. induction l as [|a l IH]; intros G e He; [done|].
  rewrite copyAttributes_cons, copyAttributes_global_cons. by apply IH, Hstep.
Qed.

Lemma copyAttributes_attrs_ok `{G : Global} src e :
  attrs_ok e → attrs_ok (copyAttributes src e).
Proof.
  intros He.
  apply (copyAttributes_keeps (λ x _, attrs_ok x)); [|done].
  intros G' n v x. apply addAttribute_attrs_ok.
Qed.

Lemma copyAttributes_grows `{G : Global} src e :
  grows G (copyAttributes_global src e).
Proof.
  apply (copyAttributes_keeps (λ _ G', grows G G')); [|apply grows_refl].
  intros G' n v x HG'. eapply grows_trans; [done|apply addAttribute_grows].
Qed.

End CopyFacts.

(** ** What one call does to the entries of a name *)

Section NamedEntries.
Context `{U : Utils} `{G : Global}.

Lemma attrs_named_singleton e n a :
  attrs_ok e → attrs_named n e = [a] →
  ∃ i, hash_of e !! n = Some i ∧ attrs_of e !! i = Some a.
Proof.
  intros Hok. rewrite (attrs_named_spec e n Hok).
  destruct (hash_of e !! n) as [i|] eqn:Hn; [|done].
  destruct (attrs_of e !! i) as [b|] eqn:Hi; [|done].
  intros [= ->]. eauto.
Qed.

Lemma attrs_named_elem_name e n a :
  attrs_named n e = [a] → attr_name a = n.
Proof.
  intros Ha. assert (a ∈ attrs_named n e) as Hin by (rewrite Ha; left).
  unfold attrs_named in Hin. by apply list_elem_of_filter in Hin as [? _].
Qed.

Lemma attrs_named_short e n :
  attrs_ok e → attrs_named n e = [] ∨ ∃ a, attrs_named n e = [a].
Proof.
  intros Hok. rewrite (attrs_named_spec e n Hok).
  destruct (hash_of e !! n) as [i|]; [|by left].
  destruct (attrs_of e !! i) as [b|]; [right; eauto|by left].
Qed.

(** A call for a name that is present merges into the one entry. *)
Lemma addAttribute_named_present e n v a :
  attrs_ok e → attrs_named n e = [a] →
  attrs_named n (addAttribute n v e) = [merge_attr n (escaped v) a].
Proof.
  intros Hok Ha.
  destruct (attrs_named_singleton e n a Hok Ha) as (i & Hn & Hi).
  destruct (addAttribute_present e n v i Hn) as [Ea Eh].
  rewrite (attrs_named_spec _ n (addAttribute_attrs_ok e n v Hok)).
  by rewrite Eh, Hn, Ea, list_lookup_alter_eq, Hi.
Qed.

(** A call for a name that is absent, and not inherited, adds its entry. *)
Lemma addAttribute_named_new e n v :
  attrs_ok e → attrs_named n e = [] → inherited n = false →
  attrs_named n (addAttribute n v e) = [mkAttr n (escaped v)].
Proof.
  intros Hok Ha Hin.
  pose proof (attrs_named_nil e n Hok Ha) as Hn.
  destruct (addAttribute_new e n v Hn Hin) as [Ea Eh].
  rewrite (attrs_named_spec _ n (addAttribute_attrs_ok e n v Hok)).
  by rewrite Eh, lookup_insert_eq, Ea, list_lookup_middle.
Qed.

(** A call for one name leaves the entries of every other name alone. *)
Lemma addAttribute_named_other e m n v :
  attrs_ok e → m ≠ n →
  attrs_named n (addAttribute m v e) = attrs_named n e.
Proof.
  intros Hok Hmn.
  rewrite (attrs_named_spec _ n (addAttribute_attrs_ok e m v Hok)).
  rewrite (attrs_named_spec e n Hok).
  destruct (hash_of e !! m) as [i|] eqn:Hm.
  - destruct (addAttribute_present e m v i Hm) as [Ea Eh]. rewrite Eh, Ea.
    destruct (hash_of e !! n) as [j|] eqn:Hn; [|done].
    rewrite list_lookup_alter_ne; [done|].
    intros ->. destruct (hash_sound e Hok m j Hm) as [w Hw].
    destruct (hash_sound e Hok n j Hn) as [w' Hw']. congruence.
  - destruct (inherited m) eqn:Hin.
    + destruct (addAttribute_inherited e m v Hm Hin) as [Ea Eh].
      by rewrite Eh, Ea.
    + destruct (addAttribute_new e m v Hm Hin) as [Ea Eh]. rewrite Eh, Ea.
      rewrite lookup_insert_ne by done.
      destruct (hash_of e !! n) as [j|] eqn:Hn; [|done].
      destruct (hash_sound e Hok n j Hn) as [w Hw].
      by rewrite (lookup_app_l_Some _ _ _ _ Hw), Hw.
Qed.

Lemma class_not_inherited : inherited "class" = false.
Proof. reflexivity. Qed.

Lemma id_not_inherited : inherited "id" = false.
Proof. reflexivity. Qed.

(** C1 (as amended).  On an element without a class attribute,
    [addAttribute("class", "a")] followed by [addAttribute("class", "b")]
    leaves exactly one class attribute, with value ["a b"]: the values in
    call order, one space between them and none in front.  A further
    [addAttribute("class", "")] appends the separator again, so the value
    becomes ["a b "]. *)
Theorem class_tokens_append (e : ParsedElement) :
  escaped (Some "a") = "a" → escaped (Some "b") = "b" → escaped (Some "") = "" →
  attrs_ok e → attrs_named "class" e = [] →
  attrs_named "class" (addAttribute "class" (Some "a") e) = [mkAttr "class" "a"]
  ∧ attrs_named "class"
      (addAttribute "class" (Some "b") (addAttribute "class" (Some "a") e))
    = [mkAttr "class" "a b"]
  ∧ attrs_named "class"
      (addAttribute "class" (Some "")
         (addAttribute "class" (Some "b") (addAttribute "class" (Some "a") e)))
    = [mkAttr "class" "a b "].
Proof.
  intros Ea Eb E0 Hok Hnone.
  pose proof (addAttribute_named_new e "class" (Some "a") Hok Hnone
                class_not_inherited) as H1.
  pose proof (addAttribute_attrs_ok e "class" (Some "a") Hok) as Hok1.
  pose proof (addAttribute_named_present _ "class" (Some "b") _ Hok1 H1) as H2.
  pose proof (addAttribute_attrs_ok _ "class" (Some "b") Hok1) as Hok2.
  pose proof (addAttribute_named_present _ "class" (Some "") _ Hok2 H2) as H3.
  rewrite H1, H2, H3, Ea, Eb, E0. done.
Qed.

(** C2.  For a name other than ["class"] that the element already carries,
    [addAttribute(name, v)] leaves exactly one entry of that name, whose
    value is the escaped form of [v]; the array keeps its length.  So
    [addAttribute("id", "x")] followed by [addAttribute("id", "y")] leaves a
    single id attribute with value ["y"]. *)
Theorem last_write_wins (e : ParsedElement) (n : string) (v : option string) :
  attrs_ok e → n ≠ "class" → n ∈ attr_name <$> attrs_of e →
  escaped (Some "y") = "y" →
  attrs_named n (addAttribute n v e) = [mkAttr n (escaped v)]
  ∧ length (attrs_of (addAttribute n v e)) = length (attrs_of e)
  ∧ attrs_named "id"
      (addAttribute "id" (Some "y") (addAttribute "id" (Some "x") e))
    = [mkAttr "id" "y"].
Proof.
  intros Hok Hn Hin Ey.
  apply list_elem_of_fmap in Hin as (a & -> & Ha).
  pose proof (attrs_named_elem e _ a Hok Ha eq_refl) as Hnamed.
  split; [|split].
  - rewrite (addAttribute_named_present e _ v a Hok Hnamed).
    unfold merge_attr. apply String.eqb_neq in Hn. by rewrite Hn.
  - destruct (attrs_named_singleton e _ a Hok Hnamed) as (i & Hi & _).
    destruct (addAttribute_present e _ v i Hi) as [-> _].
    apply length_alter.
  - pose proof (addAttribute_attrs_ok e "id" (Some "x") Hok) as Hok1.
    assert (∃ b, attrs_named "id" (addAttribute "id" (Some "x") e) = [b])
      as [b Hb].
    { destruct (attrs_named_short e "id" Hok) as [Hnil|[b Hb]].
      - rewrite (addAttribute_named_new e "id" _ Hok Hnil id_not_inherited).
        eauto.
      - rewrite (addAttribute_named_present e "id" _ b Hok Hb). eauto. }
    rewrite (addAttribute_named_present _ "id" (Some "y") b Hok1 Hb).
    pose proof (attrs_named_elem_name _ _ _ Hb) as Hname.
    unfold merge_attr. simpl. by rewrite Hname, Ey.
Qed.

End NamedEntries.

Lemma class_tokens_append_witness :
  @escaped Samples.utils (Some "a") = "a"
  ∧ attrs_named "class" Samples.div = []
  ∧ attrs_named "class"
      (@addAttribute Samples.utils pristine "class" (Some "")
         (@addAttribute Samples.utils pristine "class" (Some "b")
            (@addAttribute Samples.utils pristine "class" (Some "a") Samples.div)))
    = [mkAttr "class" "a b "].
Proof.
  split; [reflexivity|]. split; [reflexivity|].
  apply (@class_tokens_append Samples.utils pristine Samples.div);
    [reflexivity | reflexivity | reflexivity
    | apply new_ParsedElement_attrs_ok | reflexivity].
Defined.

(** C1 as stated fails: after ["a"] and ["b"], appending the empty value does
    not leave ["a b"]. *)
Lemma class_empty_append_counterexample :
  attrs_named "class"
    (@addAttribute Samples.utils pristine "class" (Some "b")
       (@addAttribute Samples.utils pristine "class" (Some "a") Samples.div))
  = [mkAttr "class" "a b"]
  ∧ attrs_named "class"
      (@addAttribute Samples.utils pristine "class" (Some "")
         (@addAttribute Samples.utils pristine "class" (Some "b")
            (@addAttribute Samples.utils pristine "class" (Some "a") Samples.div)))
    ≠ [mkAttr "class" "a b"].
Proof. split; [reflexivity | vm_compute; discriminate]. Qed.

Lemma last_write_wins_witness :
  "id" ∈ attr_name <$> attrs_of (@addAttribute Samples.utils pristine "id" (Some "x") Samples.div)
  ∧ attrs_named "id"
      (@addAttribute Samples.utils pristine "id" (Some "y")
         (@addAttribute Samples.utils pristine "id" (Some "x") Samples.div))
    = [mkAttr "id" "y"].
Proof.
  split; [vm_compute; left|].
  apply (@last_write_wins Samples.utils pristine
           (@addAttribute Samples.utils pristine "id" (Some "x") Samples.div)
           "id" (Some "y"));
    [ apply addAttribute_attrs_ok, new_ParsedElement_attrs_ok
    | discriminate
    | vm_compute; left
    | reflexivity ].
Defined.

(** C10, at the failing input: ["constructor"] is found in the empty
    dictionary through [Object.prototype], so [addAttribute] takes the branch
    for a name that is present and the new attribute is never added. *)
Theorem inherited_name_not_added :
  attrs_named "constructor" Samples.div = []
  ∧ attributes (@addAttribute Samples.utils pristine "constructor" (Some "x") Samples.div)
    = Some []
  ∧ attrs_named "constructor"
      (@addAttribute Samples.utils pristine "constructor" (Some "x") Samples.div) = [].
Proof. repeat split. Qed.

Section Escaping.
Context `{U : Utils} `{G : Global}.

(** For a name that is not merged (anything but a class that is already
    there) the entry holds the escaped argument, new or not. *)
Lemma addAttribute_named_plain e n v :
  attrs_ok e → inherited n = false →
  (n = "class" → attrs_named n e = []) →
  attrs_named n (addAttribute n v e) = [mkAttr n (escaped v)].
Proof.
  intros Hok Hin Hclass.
  destruct (attrs_named_short e n Hok) as [Hnil|[a Ha]].
  - by apply addAttribute_named_new.
  - rewrite (addAttribute_named_present e n v a Hok Ha).
    assert (n ≠ "class") as Hn by (intros Heq; rewrite (Hclass Heq) in Ha; done).
    unfold merge_attr. apply String.eqb_neq in Hn. rewrite Hn.
    by rewrite (attrs_named_elem_name e n a Ha).
Qed.

End Escaping.

(** C5 (as amended).  With the delimiter transform as the spec describes
    it, and for a name the dictionary does not inherit: where [addAttribute]
    stores the value (a new name, or any name but a class that is already
    there) the stored value is the transform of its argument, so an escaped
    pipe ["a\|b"] is stored as the literal ["a|b"] and a bare pipe ["a|b"]
    as ["a"], the caret placeholder token, ["b"]; where it merges into a class
    that is already there, the transform of the argument is appended to the
    old value, after one space unless the old value is empty. *)
Theorem stored_value_is_escaped (caret : string) (et : string → string)
    (G : Global) (e : ParsedElement) (n : string) (v : option string) :
  attrs_ok e → @inherited G n = false →
  ((n = "class" → attrs_named n e = []) →
   attrs_named n (@addAttribute (SpecUtils caret et) G n v e)
     = [mkAttr n (escapeDelimiter (or_empty v) "|" caret)]
   ∧ attrs_named n (@addAttribute (SpecUtils caret et) G n (Some "a\|b") e)
     = [mkAttr n "a|b"]
   ∧ attrs_named n (@addAttribute (SpecUtils caret et) G n (Some "a|b") e)
     = [mkAttr n ("a" +:+ caret +:+ "b")])
  ∧ (∀ old, attrs_named "class" e = [mkAttr "class" old] →
     attrs_named "class" (@addAttribute (SpecUtils caret et) G "class" v e)
     = [mkAttr "class"
          (old +:+ (if str_truthy old then " " else "")
               +:+ escapeDelimiter (or_empty v) "|" caret)]).
Proof.
  intros Hok Hin. split.
  - intros Hclass.
    pose proof (@addAttribute_named_plain (SpecUtils caret et) G e n) as Hplain.
    repeat split; rewrite Hplain by done; reflexivity.
  - intros old Hold.
    by rewrite (@addAttribute_named_present (SpecUtils caret et) G e "class" v _
                  Hok Hold).
Qed.

Lemma stored_value_is_escaped_witness :
  attrs_named "title"
    (@addAttribute (SpecUtils Samples.caret id) pristine "title" (Some "a|b")
       Samples.div)
  = [mkAttr "title" "a${0}b"].
Proof.
  apply (stored_value_is_escaped Samples.caret id pristine Samples.div "title" None);
    [apply new_ParsedElement_attrs_ok | reflexivity | discriminate].
Defined.

(** C5 as stated fails: on an element that has a class, the value stored
    under class is not the transform of the argument but the old value, a
    space and that transform. *)
Lemma stored_value_class_counterexample :
  attrs_named "class" (@addAttribute Samples.utils pristine "class" (Some "x") Samples.div)
  = [mkAttr "class" "x"]
  ∧ attrs_named "class"
      (@addAttribute Samples.utils pristine "class" (Some "a|b")
         (@addAttribute Samples.utils pristine "class" (Some "x") Samples.div))
    = [mkAttr "class" "x a${0}b"]
  ∧ attrs_named "class"
      (@addAttribute Samples.utils pristine "class" (Some "a|b")
         (@addAttribute Samples.utils pristine "class" (Some "x") Samples.div))
    ≠ [mkAttr "class" (escapeDelimiter "a|b" "|" Samples.caret)].
Proof. split; [reflexivity|]. split; [reflexivity | vm_compute; discriminate]. Qed.


(** ** Calls on the attributes leave every other field alone *)

Section Frame.
Context `{U : Utils} `{G : Global}.

Lemma core_set_attrs al ah e : core (set_attrs al ah e) = core e.
Proof. done. Qed.

Lemma addAttribute_core n v e : core (addAttribute n v e) = core e.
Proof.
  unfold addAttribute, addAttribute_run.
  destruct (default ∅ (_attr_hash e) !! n); [done|].
  by destruct (inherited n).
Qed.

End Frame.

Section FrameCopy.
Context `{U : Utils}.

Lemma copyAttributes_core `{G : Global} src e :
  core (copyAttributes src e) = core e.
Proof.
  apply (copyAttributes_keeps (λ x _, core x = core e)); [|done].
  intros G' n v x Hx. rewrite <- Hx. apply (@addAttribute_core U G').
Qed.

Lemma new_ParsedElement_abbr node syn r opts :
  _abbr (new_ParsedElement node syn r opts) = r.
Proof. unfold new_ParsedElement, setContent. by destruct (node_text node). Qed.

Lemma new_ParsedElement_name node syn r opts :
  name (new_ParsedElement node syn r opts)
  = match r with Some d => res_name d | None => node_name node end.
Proof. unfold new_ParsedElement, setContent. by destruct (node_text node). Qed.

Lemma new_ParsedElement_real_name node syn r opts :
  real_name (new_ParsedElement node syn r opts) = node_name node.
Proof. unfold new_ParsedElement, setContent. by destruct (node_text node). Qed.

Lemma new_ParsedElement_unset node syn r opts :
  attributes (new_ParsedElement node syn r opts) = None
  ∧ _attr_hash (new_ParsedElement node syn r opts) = None.
Proof. unfold new_ParsedElement, setContent. by destruct (node_text node). Qed.

End FrameCopy.

(** ** Layering attributes with [copyAttributes] *)

Section Layering.
Context `{U : Utils}.

Lemma merged_value_unnamed n old l :
  unnamed n l → merged_value n old l = old.
Proof.
  unfold merged_value. revert old.
  induction l as [|a l IH]; intros old Hl; [done|].
  simpl. rewrite decide_False by (apply Hl; left).
  apply IH. intros b Hb. apply Hl. by right.
Qed.

Lemma merged_value_app n old l1 l2 :
  merged_value n old (l1 ++ l2) = merged_value n (merged_value n old l1) l2.
Proof. unfold merged_value. apply foldl_app. Qed.

Lemma merged_value_last n old v l :
  n ≠ "class" → names_last n v l → merged_value n old l = escaped v.
Proof.
  intros Hn (l1 & l2 & -> & Hl2).
  rewrite merged_value_app.
  change (mkSrcAttr n v :: l2) with ([mkSrcAttr n v] ++ l2).
  rewrite merged_value_app, (merged_value_unnamed n _ l2 Hl2).
  unfold merged_value. simpl. rewrite decide_True by done.
  unfold merge_attr. apply String.eqb_neq in Hn. by rewrite Hn.
Qed.

Lemma merged_value_once_class old v l :
  names_once "class" v l →
  merged_value "class" old l
  = old +:+ (if str_truthy old then " " else "") +:+ escaped v.
Proof.
  intros (l1 & l2 & -> & Hl1 & Hl2).
  rewrite merged_value_app, (merged_value_unnamed _ _ l1 Hl1).
  change (mkSrcAttr "class" v :: l2) with ([mkSrcAttr "class" v] ++ l2).
  by rewrite merged_value_app, (merged_value_unnamed _ _ l2 Hl2).
Qed.

(** Copying a list onto an element that has the name merges, in order,
    every entry of that name. *)
Lemma copyAttributes_named_present `{G : Global} l e n old :
  attrs_ok e → attrs_named n e = [mkAttr n old] →
  attrs_named n (copyAttributes (Some l) e) = [mkAttr n (merged_value n old l)].
Proof.
  revert G e old.
  induction l as [|a l IH]; intros G e old Hok He; [done|].
  rewrite copyAttributes_cons.
  pose proof (addAttribute_attrs_ok e (src_name a) (src_value a) Hok) as Hok1.
  unfold merged_value. simpl. fold (merged_value n).
  destruct (decide (src_name a = n)) as [Ha|Ha].
  - apply IH; [done|]. rewrite Ha.
    rewrite (addAttribute_named_present e n _ _ Hok He).
    pose proof (merge_attr_name n (escaped (src_value a)) (mkAttr n old)) as Hname.
    destruct (merge_attr n (escaped (src_value a)) (mkAttr n old)) as [m w].
    simpl in *. by subst.
  - apply IH; [done|]. by rewrite addAttribute_named_other.
Qed.

End Layering.

Lemma unnamed_nil n : unnamed n [].
Proof. intros a Ha. by apply elem_of_nil in Ha. Qed.

Lemma unnamed_cons n a l : src_name a ≠ n → unnamed n l → unnamed n (a :: l).
Proof. intros Ha Hl b Hb. apply elem_of_cons in Hb as [->|Hb]; [done|by apply Hl]. Qed.

(** ** The factories *)

Section FactoryFacts.
Context `{U : Utils} `{G : Global} `{R : Resources}.

(** The element the snippet factory returns is the constructed one with
    [value] set, then the two synthetic attributes, then the node's own. *)
Lemma parsedSnippet_result node syn resource opts :
  ∃ r val,
    (parsedSnippet node syn resource opts).1
    = copyAttributes (node_attributes node)
        (addAttribute "class" (Some getCaretPlaceholder)
           (addAttribute "id" (Some getCaretPlaceholder)
              (set_value val (new_ParsedElement node syn r opts))))
    ∧ parsedSnippet_global node syn resource opts
      = copyAttributes_global (node_attributes node)
          (addAttribute "class" (Some getCaretPlaceholder)
             (addAttribute "id" (Some getCaretPlaceholder)
                (set_value val (new_ParsedElement node syn r opts)))).
Proof.
  assert (∀ e0,
    @copyAttributes_run U
      (@addAttribute_run U (addAttribute_run "id" (Some getCaretPlaceholder) e0).2
         "class" (Some getCaretPlaceholder)
         (addAttribute_run "id" (Some getCaretPlaceholder) e0).1).2
      (node_attributes node)
      (@addAttribute_run U (addAttribute_run "id" (Some getCaretPlaceholder) e0).2
         "class" (Some getCaretPlaceholder)
         (addAttribute_run "id" (Some getCaretPlaceholder) e0).1).1
    = copyAttributes_run (node_attributes node)
        (addAttribute "class" (Some getCaretPlaceholder)
           (addAttribute "id" (Some getCaretPlaceholder) e0))) as Hrun.
  { intros e0.
    change (addAttribute_run "id" (Some getCaretPlaceholder) e0).2
      with (addAttribute_global "id" (Some getCaretPlaceholder) e0).
    rewrite (addAttribute_global_other e0 "id") by done.
    change (addAttribute_run "id" (Some getCaretPlaceholder) e0).1
      with (addAttribute "id" (Some getCaretPlaceholder) e0).
    change (addAttribute_run "class" (Some getCaretPlaceholder)
              (addAttribute "id" (Some getCaretPlaceholder) e0)).2
      with (addAttribute_global "class" (Some getCaretPlaceholder)
              (addAttribute "id" (Some getCaretPlaceholder) e0)).
    by rewrite (addAttribute_global_other _ "class"). }
  unfold parsedSnippet, parsedSnippet_global, parsedSnippet_run, copyAttributes,
    copyAttributes_global.
  destruct resource as [|s|r]; simpl; rewrite Hrun; eauto.
Qed.

(** The two synthetic attributes on a freshly constructed element. *)
Lemma synthetic_attributes node syn r opts val :
  let e1 := addAttribute "class" (Some getCaretPlaceholder)
              (addAttribute "id" (Some getCaretPlaceholder)
                 (set_value val (new_ParsedElement node syn r opts))) in
  attrs_ok e1
  ∧ attrs_of e1 = [mkAttr "id" (escaped (Some getCaretPlaceholder));
                   mkAttr "class" (escaped (Some getCaretPlaceholder))]
  ∧ hash_of e1 = <["class" := 1]> (<["id" := 0]> ∅).
Proof.
  intros e1.
  set (e0 := set_value val (new_ParsedElement node syn r opts)).
  destruct (new_ParsedElement_unset node syn r opts) as [Hno Hnh].
  assert (attrs_of e0 = []) as Ha0 by (unfold attrs_of, e0; simpl; by rewrite Hno).
  assert (hash_of e0 = ∅) as Hh0 by (unfold hash_of, e0; simpl; by rewrite Hnh).
  assert (attrs_ok e0) as Hok0.
  { split; rewrite Ha0, Hh0; intros; simplify_eq. }
  destruct (addAttribute_new e0 "id" (Some getCaretPlaceholder)) as [Ha1 Hh1];
    [by rewrite Hh0 | reflexivity |].
  rewrite Ha0 in Ha1. rewrite Ha0, Hh0 in Hh1. simpl in Ha1, Hh1.
  destruct (addAttribute_new (addAttribute "id" (Some getCaretPlaceholder) e0)
              "class" (Some getCaretPlaceholder)) as [Ha2 Hh2];
    [by rewrite Hh1 | reflexivity |].
  rewrite Ha1 in Ha2. rewrite Ha1, Hh1 in Hh2. simpl in Ha2, Hh2.
  split; [by do 2 apply addAttribute_attrs_ok|]. done.
Qed.

(** C3.  The snippet factory sets [id] and [class] to the caret placeholder
    token before it copies the node's own attributes.  A node that specifies
    [class="foo"], among whatever other attributes, therefore ends with the
    class value placeholder, space, ["foo"]; a node that names an id ends
    with that id (the last one it names); a node without id keeps the
    placeholder as id. *)
Theorem snippet_default_attributes (node : TreeNode) (syn : string)
    (resource : ResourceArg) (opts : option (gmap string jsval)) :
  escaped (Some getCaretPlaceholder) = getCaretPlaceholder →
  getCaretPlaceholder ≠ "" →
  escaped (Some "foo") = "foo" →
  let e := (parsedSnippet node syn resource opts).1 in
  (∃ e1, e = copyAttributes (node_attributes node) e1
         ∧ attrs_of e1 = [mkAttr "id" getCaretPlaceholder;
                          mkAttr "class" getCaretPlaceholder])
  ∧ (∀ l, node_attributes node = Some l →
     names_once "class" (Some "foo") l →
     attrs_named "class" e
     = [mkAttr "class" (getCaretPlaceholder +:+ " foo")])
  ∧ (node_attributes node = Some [mkSrcAttr "class" (Some "foo")] →
     attrs_of e = [mkAttr "id" getCaretPlaceholder;
                   mkAttr "class" (getCaretPlaceholder +:+ " foo")])
  ∧ (∀ l v, node_attributes node = Some l → names_last "id" v l →
     attrs_named "id" e = [mkAttr "id" (escaped v)])
  ∧ (unnamed "id" (default [] (node_attributes node)) →
     attrs_named "id" e = [mkAttr "id" getCaretPlaceholder]).
Proof.
  intros Hcaret Hne Hfoo e.
  destruct (parsedSnippet_result node syn resource opts) as (r & val & He & _).
  fold e in He.
  destruct (synthetic_attributes node syn r opts val) as (Hok1 & Ha1 & Hh1).
  rewrite Hcaret in Ha1.
  set (e1 := addAttribute "class" (Some getCaretPlaceholder)
               (addAttribute "id" (Some getCaretPlaceholder)
                  (set_value val (new_ParsedElement node syn r opts)))) in *.
  assert (attrs_named "id" e1 = [mkAttr "id" getCaretPlaceholder]) as Hid.
  { rewrite (attrs_named_spec e1 "id" Hok1), Hh1, Ha1. done. }
  assert (attrs_named "class" e1 = [mkAttr "class" getCaretPlaceholder]) as Hclass.
  { rewrite (attrs_named_spec e1 "class" Hok1), Hh1, Ha1. done. }
  assert (str_truthy getCaretPlaceholder = true) as Htruthy.
  { by destruct getCaretPlaceholder. }
  split; [by exists e1|]. split; [|split; [|split]].
  - intros l Hnode Honce. rewrite He, Hnode.
    rewrite (copyAttributes_named_present l e1 "class" _ Hok1 Hclass).
    rewrite (merged_value_once_class _ _ l Honce), Htruthy, Hfoo. done.
  - intros Hnode. rewrite He, Hnode.
    rewrite copyAttributes_cons, copyAttributes_nil. simpl.
    destruct (@addAttribute_present U G e1 "class" (Some "foo") 1) as [-> _];
      [by rewrite Hh1|].
    rewrite Ha1, Hfoo. simpl. unfold merge_attr. simpl.
    by rewrite Htruthy.
  - intros l v Hnode Hlast. rewrite He, Hnode.
    rewrite (copyAttributes_named_present l e1 "id" _ Hok1 Hid).
    by rewrite (merged_value_last "id" _ v l).
  - intros Hno. rewrite He.
    destruct (node_attributes node) as [l|]; [|done].
    rewrite (copyAttributes_named_present l e1 "id" _ Hok1 Hid).
    by rewrite merged_value_unnamed.
Qed.

(** The element the tag factory returns: the constructed one, then the
    attributes of the definition it was built from, then the node's own, each
    copied in the global state the step before left. *)
Lemma parsedElement_result node syn resource opts :
  ∃ r e1 G1,
    (match r with
     | Some a => e1 = @copyAttributes U G (res_attributes a)
                        (new_ParsedElement node syn r opts)
                 ∧ G1 = @copyAttributes_global U G (res_attributes a)
                          (new_ParsedElement node syn r opts)
     | None => e1 = new_ParsedElement node syn r opts ∧ G1 = G
     end)
    ∧ _abbr (@parsedElement U G R node syn resource opts).1 = r
    ∧ (@parsedElement U G R node syn resource opts).1
      = @copyAttributes U G1 (node_attributes node) e1
    ∧ @parsedElement_global U G R node syn resource opts
      = @copyAttributes_global U G1 (node_attributes node) e1.
Proof.
  unfold parsedElement, parsedElement_global, parsedElement_run, lbind. simpl.
  match goal with
  | |- context [new_ParsedElement node syn ?r opts] => exists r; generalize r
  end.
  intros r. rewrite new_ParsedElement_abbr.
  assert (∀ G' src e, _abbr (@copyAttributes U G' src e) = _abbr e) as Habbr.
  { intros G' src e. pose proof (@copyAttributes_core U G' src e) as Hc.
    unfold core in Hc. by injection Hc as -> _ _ _ _ _ _ _ _ _ _ _ _ _. }
  destruct r as [a|]; simpl.
  - exists (copyAttributes (res_attributes a)
              (new_ParsedElement node syn (Some a) opts)),
           (copyAttributes_global (res_attributes a)
              (new_ParsedElement node syn (Some a) opts)).
    split; [split; reflexivity|].
    split; [|split; reflexivity].
    etrans; [apply Habbr|]. etrans; [apply Habbr|]. apply new_ParsedElement_abbr.
  - exists (new_ParsedElement node syn None opts), G.
    split; [split; reflexivity|].
    split; [|split; reflexivity].
    etrans; [apply Habbr|]. apply new_ParsedElement_abbr.
Qed.

(** C4.  When the store answers the lookup of the node's name with a
    reference, the tag factory sends exactly one more request, for the name
    the reference carries, and builds the element from whatever that
    request returns: its [name] is the name of the definition found there,
    while [real_name] stays the node's. *)
Theorem reference_followed_once (node : TreeNode) (syn : string)
    (opts : option (gmap string jsval)) (d : string) :
  name_truthy (node_name node) = true →
  getAbbreviation syn (node_name node) = Some (ReferenceDef d) →
  (parsedElement node syn RAbsent opts).2
    = [QAbbreviation syn (node_name node); QAbbreviation syn (Some d)]
  ∧ _abbr (parsedElement node syn RAbsent opts).1 = getAbbreviation syn (Some d)
  ∧ (∀ r2, getAbbreviation syn (Some d) = Some r2 →
     name (parsedElement node syn RAbsent opts).1 = res_name r2)
  ∧ real_name (parsedElement node syn RAbsent opts).1 = node_name node.
Proof.
  intros Htruthy Href.
  unfold parsedElement, parsedElement_run, lbind, res_getAbbreviation, lret.
  rewrite Htruthy. simpl. rewrite Href. simpl.
  set (r2 := getAbbreviation syn (Some d)).
  set (e0 := new_ParsedElement node syn r2 opts).
  assert (∀ e, core e = core e0 →
               _abbr e = r2
               ∧ (∀ r, r2 = Some r → name e = res_name r)
               ∧ real_name e = node_name node) as Hcore.
  { intros e He. unfold core in He.
    injection He as -> -> -> _ _ _ _ _ _ _ _ _ _ _.
    unfold e0. rewrite new_ParsedElement_abbr, new_ParsedElement_name,
      new_ParsedElement_real_name.
    split; [done|]. split; [|done]. by intros r ->. }
  split; [done|]. apply Hcore.
  etrans; [apply @copyAttributes_core|].
  destruct (_abbr e0); [apply @copyAttributes_core | done].
Qed.

End FactoryFacts.

Lemma snippet_default_attributes_witness :
  attrs_named "class"
    (@parsedSnippet Samples.utils pristine Samples.store
       (Samples.node "cc"
          (Some [mkSrcAttr "title" (Some "t"); mkSrcAttr "class" (Some "foo");
                 mkSrcAttr "id" (Some "main")]))
       "html" RAbsent None).1
  = [mkAttr "class" "${0} foo"].
Proof.
  refine (proj1 (proj2 (@snippet_default_attributes Samples.utils pristine
                          Samples.store
                          (Samples.node "cc"
                             (Some [mkSrcAttr "title" (Some "t");
                                    mkSrcAttr "class" (Some "foo");
                                    mkSrcAttr "id" (Some "main")]))
                          "html" RAbsent None _ _ _))
            [mkSrcAttr "title" (Some "t"); mkSrcAttr "class" (Some "foo");
             mkSrcAttr "id" (Some "main")] _ _);
    [reflexivity | discriminate | reflexivity | reflexivity |].
  exists [mkSrcAttr "title" (Some "t")], [mkSrcAttr "id" (Some "main")].
  split; [reflexivity|].
  split; (apply unnamed_cons; [discriminate | apply unnamed_nil]).
Defined.

Lemma reference_followed_once_witness :
  (@parsedElement Samples.utils pristine Samples.store (Samples.node "bq" None)
     "html" RAbsent None).2
  = [QAbbreviation "html" (Some "bq"); QAbbreviation "html" (Some "blockquote")]
  ∧ name (@parsedElement Samples.utils pristine Samples.store (Samples.node "bq" None)
            "html" RAbsent None).1
    = Some "blockquote".
Proof.
  destruct (@reference_followed_once Samples.utils pristine Samples.store
              (Samples.node "bq" None) "html" None "blockquote"
              eq_refl eq_refl) as (Hlog & _ & Hname & _).
  split; [exact Hlog|].
  exact (Hname (ElementDef "blockquote" None) eq_refl).
Defined.

(** ** Content *)

Lemma or_empty_string s : (if str_truthy s then s else "") = s.
Proof. by destruct s. Qed.

Lemma addChild_lookup_this (this c : loc) (h h' : Heap) (e : ParsedElement) :
  h !! this = Some e → addChild this c h = Some h' →
  ∃ e', h' !! this = Some e'
        ∧ children e' = children e ++ [c]
        ∧ _content e' = _content e
        ∧ count e' = count e ∧ is_repeating e' = is_repeating e.
Proof.
  intros He. unfold addChild.
  destruct (h !! c) as [ec|] eqn:Hc; [|done].
  destruct (decide (c = this)) as [->|Hne].
  - rewrite lookup_insert_eq. intros [= <-]. rewrite lookup_insert_eq.
    eexists. split; [done|]. simplify_eq. done.
  - rewrite lookup_insert_ne, He by done. intros [= <-].
    rewrite lookup_insert_eq. eexists. split; [done|]. done.
Qed.

(** [addChild] yields a store whenever both objects are elements. *)
Lemma addChild_succeeds (this c : loc) (h : Heap) :
  is_Some (h !! this) → is_Some (h !! c) → is_Some (addChild this c h).
Proof.
  intros [e He] [ec Hc]. unfold addChild. rewrite Hc.
  destruct (decide (c = this)) as [->|Hne].
  - by rewrite lookup_insert_eq.
  - by rewrite lookup_insert_ne, He.
Qed.

(** C6.  A producer given to [setContent] is kept as it is; [getContent]
    calls it with the element itself on the store of that moment and hands
    back what it returns, writing nothing of its own, so the next call runs it
    again.  A producer that returns [self.children.length] yields 0 on an
    element without children and 1 once [addChild] has run.  Literal content
    comes back as stored, and the content of an element that was given none
    is the empty string. *)
Theorem getContent_runs_producer (P : Producers) (h : Heap) (this : loc)
    (e : ParsedElement) (f : fid) `{U : Utils} :
  h !! this = Some e →
  _content (setContent (JFun f) e) = Deferred f
  ∧ (_content e = Deferred f → getContent P this h = Some (P f this h))
  ∧ (_content e = Deferred f → P f = children_length → children e = [] →
     ∀ c, is_Some (h !! c) →
       ∃ h', addChild this c h = Some h'
             ∧ getContent P this h = Some (JNum 0, h)
             ∧ getContent P this h' = Some (JNum 1, h'))
  ∧ (∀ s, _content e = Literal s → getContent P this h = Some (JStr s, h))
  ∧ (∀ node syn r opts, node_text node = JUndefined →
     e = new_ParsedElement node syn r opts →
     getContent P this h = Some (JStr "", h)).
Proof.
  intros He. split; [done|]. split; [|split; [|split]].
  - intros Hc. unfold getContent. by rewrite He, Hc.
  - intros Hc HP Hch c Hsome.
    destruct (addChild_succeeds this c h) as [h' Hadd]; [by exists e|done|].
    exists h'. split; [done|].
    destruct (addChild_lookup_this this c h h' e He Hadd)
      as (e' & He' & Hch' & Hc' & _).
    unfold getContent. rewrite He, He', Hc', Hc, HP.
    unfold children_length. rewrite He, He', Hch', Hch. done.
  - intros s Hc. unfold getContent. by rewrite He, Hc, or_empty_string.
  - intros node syn r opts Htext ->. unfold getContent. rewrite He.
    unfold new_ParsedElement. rewrite Htext. done.
Qed.

Lemma getContent_runs_producer_witness :
  ∃ h', addChild 0 1 Samples.counting = Some h'
        ∧ getContent Samples.producers 0 Samples.counting
          = Some (JNum 0, Samples.counting)
        ∧ getContent Samples.producers 0 h' = Some (JNum 1, h').
Proof.
  destruct (@getContent_runs_producer Samples.producers Samples.counting 0
              (@setContent Samples.utils (JFun 7) Samples.div) 7
              Samples.utils eq_refl) as (_ & _ & H & _).
  apply (H eq_refl eq_refl eq_refl 1). by exists Samples.div.
Defined.

(** C9.  [setContent] with data that is neither a string nor a function
    changes nothing: an element built from a node without text keeps the
    empty string it started with, and after [setContent("x")] a call with
    such data leaves [getContent] returning the escaped ["x"]. *)
Theorem setContent_ignores_other_data `{U : Utils} (data : jsval)
    (e : ParsedElement) :
  (∀ s, data ≠ JStr s) → (∀ f, data ≠ JFun f) →
  setContent data e = e
  ∧ (∀ node syn r opts, node_text node = data →
     _content (new_ParsedElement node syn r opts) = Literal "")
  ∧ (∀ P h this h1 h2,
       on_this (setContent (JStr "x")) this h = Some h1 →
       on_this (setContent data) this h1 = Some h2 →
       getContent P this h2 = Some (JStr (escaped (Some "x")), h2)).
Proof.
  intros Hs Hf.
  assert (∀ e', setContent data e' = e') as Hnoop.
  { intros e'. destruct data; try done; [by destruct (Hs s) | by destruct (Hf f)]. }
  split; [apply Hnoop|]. split.
  - intros node syn r opts Htext. unfold new_ParsedElement.
    rewrite Htext, Hnoop. done.
  - intros P h this h1 h2. unfold on_this.
    destruct (h !! this) as [e0|] eqn:H0; [|done]. intros [= <-].
    rewrite lookup_insert_eq, Hnoop. intros [= <-].
    unfold getContent. rewrite lookup_insert_eq. simpl.
    by rewrite or_empty_string.
Qed.

Lemma setContent_ignores_other_data_witness :
  @setContent Samples.utils JUndefined
    (@setContent Samples.utils (JStr "x") Samples.div)
  = @setContent Samples.utils (JStr "x") Samples.div.
Proof.
  apply (@setContent_ignores_other_data Samples.utils JUndefined); discriminate.
Defined.

(** ** The deepest child *)

Lemma deepest_loop_follows (h : Heap) (n : nat) (a d : loc) :
  follows_last h n a d → childless h d →
  ∀ fuel, n < fuel → deepest_loop fuel h a = Done d.
Proof.
  intros Hpath (ed & Hd & Hleaf).
  induction Hpath as [a|n a e c d He Hlast _ IH]; intros fuel Hfuel.
  - destruct fuel as [|fuel]; [lia|]. simpl. by rewrite Hd, Hleaf.
  - destruct fuel as [|fuel]; [lia|]. simpl. rewrite He, Hlast.
    apply IH; [done|lia].
Qed.

(** The loop, when it answers, answers with the end of the path of last
    children. *)
Lemma deepest_loop_sound (h : Heap) (fuel : nat) (a d : loc) :
  deepest_loop fuel h a = Done d →
  childless h d ∧ ∃ n, n < fuel ∧ follows_last h n a d.
Proof.
  revert a. induction fuel as [|fuel IH]; intros a; [done|].
  simpl. destruct (h !! a) as [e|] eqn:He; [|done].
  destruct (last (children e)) as [c|] eqn:Hlast.
  - intros Hrun. destruct (IH c Hrun) as (Hleaf & n & Hn & Hpath).
    split; [done|]. exists (S n). split; [lia|]. by eapply follows_step.
  - intros [= <-]. apply last_None in Hlast. split; [by exists e|].
    exists 0. split; [lia|constructor].
Qed.

Lemma addChild_lookup_other (this c l : loc) (h h' : Heap) :
  l ≠ this → l ≠ c → addChild this c h = Some h' → h' !! l = h !! l.
Proof.
  intros H1 H2. unfold addChild.
  destruct (h !! c) as [ec|]; [|done].
  destruct (<[c:=set_parent (Some this) ec]> h !! this) as [t|]; [|done].
  intros [= <-]. by rewrite !lookup_insert_ne.
Qed.

Lemma addChild_lookup_child (this c : loc) (h h' : Heap) (ec : ParsedElement) :
  c ≠ this → h !! c = Some ec → addChild this c h = Some h' →
  ∃ ec', h' !! c = Some ec' ∧ children ec' = children ec
         ∧ parent ec' = Some this.
Proof.
  intros Hne Hc. unfold addChild. rewrite Hc.
  destruct (<[c:=set_parent (Some this) ec]> h !! this) as [t|]; [|done].
  intros [= <-]. rewrite lookup_insert_ne, lookup_insert_eq by done. eauto.
Qed.

(** In a store without cycles the path of last children ends. *)
Lemma last_path_ends (h : Heap) (rank : loc → nat) :
  ranked h rank →
  ∀ k l e, rank l < k → h !! l = Some e →
  ∃ n d, follows_last h n l d ∧ childless h d.
Proof.
  intros Hrank. induction k as [|k IH]; intros l e Hk He; [lia|].
  destruct (last (children e)) as [c|] eqn:Hlast.
  - destruct (Hrank l e c He (last_Some_elem_of _ _ Hlast)) as [[ec Hc] Hlt].
    destruct (IH c ec) as (n & d & Hpath & Hleaf); [lia|done|].
    exists (S n), d. split; [by eapply follows_step|done].
  - apply last_None in Hlast. exists 0, l. split; [constructor|by exists e].
Qed.

(** C7.  [findDeepestChild] returns null on an element without children.
    Otherwise it walks from the element to the last child, again and again,
    and returns the first element it reaches that has no children.  For a
    chain made by [root.addChild(A)], [A.addChild(B)], [B.addChild(C)] of
    elements without children it returns [C]. *)
Theorem findDeepestChild_follows_last (h : Heap) (this : loc) (e : ParsedElement) :
  h !! this = Some e →
  (children e = [] → ∀ fuel, findDeepestChild fuel this h = Done None)
  ∧ (children e ≠ [] →
     ∀ n d, follows_last h n this d → childless h d →
     ∀ fuel, n < fuel → findDeepestChild fuel this h = Done (Some d))
  ∧ (children e ≠ [] → acyclic h →
     ∃ n d, follows_last h n this d ∧ childless h d
            ∧ ∀ fuel, n < fuel → findDeepestChild fuel this h = Done (Some d))
  ∧ (children e = [] →
     ∀ a b c h1 h2 h3,
       childless h a → childless h b → childless h c →
       NoDup [this; a; b; c] →
       addChild this a h = Some h1 →
       addChild a b h1 = Some h2 →
       addChild b c h2 = Some h3 →
       ∀ fuel, 3 < fuel → findDeepestChild fuel this h3 = Done (Some c)).
Proof.
  intros He.
  assert (∀ (h0 : Heap) (e0 : ParsedElement),
            h0 !! this = Some e0 → children e0 ≠ [] →
            ∀ n d, follows_last h0 n this d → childless h0 d →
            ∀ fuel, n < fuel → findDeepestChild fuel this h0 = Done (Some d))
    as Hwalk.
  { intros h0 e0 H0 Hne n d Hpath Hleaf fuel Hfuel.
    unfold findDeepestChild. rewrite H0.
    destruct (children e0) as [|x l]; [done|]. simpl.
    by rewrite (deepest_loop_follows h0 n this d Hpath Hleaf fuel Hfuel). }
  split; [|split; [|split]].
  - intros Hnil fuel. unfold findDeepestChild. by rewrite He, Hnil.
  - intros Hne. by apply (Hwalk h e).
  - intros Hne [rank Hrank].
    destruct (last_path_ends h rank Hrank (S (rank this)) this e)
      as (n & d & Hpath & Hleaf); [lia|done|].
    exists n, d. split; [done|]. split; [done|].
    by apply (Hwalk h e).
  - intros Hnil a b c h1 h2 h3 (ea & Ha & Hca) (eb & Hb & Hcb) (ec & Hc & Hcc)
      Hdup Hadd1 Hadd2 Hadd3 fuel Hfuel.
    apply NoDup_cons in Hdup as [Hthis Hdup].
    apply NoDup_cons in Hdup as [Hna Hdup].
    apply NoDup_cons in Hdup as [Hnb _].
    assert (this ≠ a ∧ this ≠ b ∧ this ≠ c ∧ a ≠ b ∧ a ≠ c ∧ b ≠ c)
      as (Hta & Htb & Htc & Hab & Hac & Hbc) by set_solver.
    (* the root after the three calls *)
    destruct (addChild_lookup_this this a h h1 e He Hadd1)
      as (r1 & Hr1 & Hr1c & _).
    assert (h3 !! this = Some r1) as Hr3.
    { rewrite (addChild_lookup_other b c this h2 h3), 
        (addChild_lookup_other a b this h1 h2); done. }
    (* A after the three calls *)
    destruct (addChild_lookup_child this a h h1 ea) as (a1 & Ha1 & Ha1c & _);
      [done|done|done|].
    destruct (addChild_lookup_this a b h1 h2 a1 Ha1 Hadd2)
      as (a2 & Ha2 & Ha2c & _).
    assert (h3 !! a = Some a2) as Ha3.
    { rewrite (addChild_lookup_other b c a h2 h3); done. }
    (* B after the three calls *)
    assert (h1 !! b = Some eb) as Hb1.
    { rewrite (addChild_lookup_other this a b h h1); done. }
    destruct (addChild_lookup_child a b h1 h2 eb) as (b2 & Hb2 & Hb2c & _);
      [done|done|done|].
    destruct (addChild_lookup_this b c h2 h3 b2 Hb2 Hadd3)
      as (b3 & Hb3 & Hb3c & _).
    (* C after the three calls *)
    assert (h2 !! c = Some ec) as Hc2.
    { rewrite (addChild_lookup_other a b c h1 h2),
        (addChild_lookup_other this a c h h1); done. }
    destruct (addChild_lookup_child b c h2 h3 ec) as (c3 & Hc3 & Hc3c & _);
      [done|done|done|].
    apply (Hwalk h3 r1 Hr3) with (n := 3); [|..|done].
    + rewrite Hr1c, Hnil. done.
    + eapply follows_step; [exact Hr3 | by rewrite Hr1c, Hnil |].
      eapply follows_step; [exact Ha3 | by rewrite Ha2c, Ha1c, Hca |].
      eapply follows_step; [exact Hb3 | by rewrite Hb3c, Hb2c, Hcb |].
      constructor.
    + exists c3. split; [done|]. by rewrite Hc3c.
Qed.

Lemma findDeepestChild_follows_last_witness :
  findDeepestChild 4 0 Samples.chain = Done (Some 3).
Proof.
  destruct (findDeepestChild_follows_last Samples.four 0 Samples.div eq_refl)
    as (_ & _ & _ & Hchain).
  apply (Hchain eq_refl 1 2 3
           (Samples.after (addChild 0 1 Samples.four))
           (Samples.after (addChild 1 2 (Samples.after (addChild 0 1 Samples.four)))));
    try (exists Samples.div; split; reflexivity);
    try reflexivity.
  - compute_done.
  - lia.
Defined.

(** It is the last child that is followed, not the first: the first child of
    the root has a child of its own, the second has none. *)
Example findDeepestChild_takes_last :
  findDeepestChild 3 0 Samples.fork = Done (Some 2)
  ∧ children <$> Samples.fork !! 0 = Some [1; 2]
  ∧ children <$> Samples.fork !! 1 = Some [3].
Proof. repeat split. Qed.

(** An element that is its own last child: the loop never leaves it, so no
    amount of fuel yields an answer. *)
Example findDeepestChild_cycle :
  ∀ fuel, findDeepestChild fuel 0 Samples.loop = OutOfFuel.
Proof.
  assert (∀ fuel, deepest_loop fuel Samples.loop 0 = OutOfFuel) as Hloop.
  { induction fuel as [|fuel IH]; [done|].
    change (deepest_loop (S fuel) Samples.loop 0)
      with (deepest_loop fuel Samples.loop 0). exact IH. }
  intros fuel.
  change (findDeepestChild fuel 0 Samples.loop)
    with (match deepest_loop fuel Samples.loop 0 with
          | Done d => Done (Some d)
          | TypeError => TypeError
          | OutOfFuel => OutOfFuel
          end).
  by rewrite Hloop.
Qed.

(** ** The repeat count *)

Section Count.
Context `{U : Utils} `{G : Global}.

Lemma setContent_core_count data e :
  count (setContent data e) = count e
  ∧ is_repeating (setContent data e) = is_repeating e.
Proof. by destruct data. Qed.

Lemma core_count e e' :
  core e' = core e → count e' = count e ∧ is_repeating e' = is_repeating e.
Proof. unfold core. intros He. by injection He as _ _ _ -> _ _ _ _ -> _ _ _ _ _. Qed.

(** A method that keeps the count on [this] keeps it on every element. *)
Lemma on_this_count (f : ParsedElement → ParsedElement) this h h' l e :
  (∀ x, count (f x) = count x ∧ is_repeating (f x) = is_repeating x) →
  on_this f this h = Some h' → h !! l = Some e →
  ∃ e', h' !! l = Some e' ∧ count e' = count e
        ∧ is_repeating e' = is_repeating e.
Proof.
  intros Hf. unfold on_this.
  destruct (h !! this) as [t|] eqn:Ht; [|done]. intros [= <-] Hl.
  destruct (decide (this = l)) as [->|Hne].
  - rewrite lookup_insert_eq. rewrite Ht in Hl. injection Hl as ->.
    exists (f e). split; [done|]. apply Hf.
  - rewrite lookup_insert_ne by done. eauto.
Qed.

Lemma addChild_count this c h h' l e :
  addChild this c h = Some h' → h !! l = Some e →
  ∃ e', h' !! l = Some e' ∧ count e' = count e
        ∧ is_repeating e' = is_repeating e.
Proof.
  unfold addChild.
  destruct (h !! c) as [ec|] eqn:Hc; [|done].
  destruct (<[c:=set_parent (Some this) ec]> h !! this) as [t|] eqn:Ht; [|done].
  intros [= <-] Hl.
  destruct (decide (this = l)) as [->|Hnt].
  - rewrite lookup_insert_eq. eexists. split; [done|]. simpl.
    destruct (decide (c = l)) as [->|Hnc].
    + rewrite lookup_insert_eq in Ht. by simplify_eq.
    + rewrite lookup_insert_ne in Ht by done. by simplify_eq.
  - rewrite lookup_insert_ne by done.
    destruct (decide (c = l)) as [->|Hnc].
    + rewrite lookup_insert_eq. eexists. split; [done|]. by simplify_eq.
    + rewrite lookup_insert_ne by done. eauto.
Qed.

Lemma perform_count c h h' l e :
  perform c h = Some h' → h !! l = Some e →
  ∃ e', h' !! l = Some e' ∧ count e' = count e
        ∧ is_repeating e' = is_repeating e.
Proof.
  destruct c as [this c|this n v|this src|this data|this val]; simpl.
  - apply addChild_count.
  - apply on_this_count. intros x. apply core_count, addAttribute_core.
  - apply on_this_count. intros x. apply core_count, copyAttributes_core.
  - apply on_this_count. intros x. apply setContent_core_count.
  - apply on_this_count. by intros x.
Qed.

End Count.

Section CallSequences.
Context `{U : Utils}.

(** What every call keeps, every sequence of calls keeps, in whatever global
    state it starts. *)
Lemma perform_all_keeps (P : Heap → Prop) :
  (∀ G c h h', P h → @perform U G c h = Some h' → P h') →
  ∀ cs G h h', P h → @perform_all U G cs h = Some h' → P h'.
Proof.
  intros Hstep. induction cs as [|c cs IH]; intros G h h' Hh; simpl.
  - by intros [= <-].
  - destruct (perform c h) as [h1|] eqn:Hc; [|done].
    apply IH. by eapply Hstep.
Qed.

Lemma perform_all_count `{G : Global} cs h h' l e :
  perform_all cs h = Some h' → h !! l = Some e →
  ∃ e', h' !! l = Some e' ∧ count e' = count e
        ∧ is_repeating e' = is_repeating e.
Proof.
  intros Hrun Hl. revert Hrun.
  refine (perform_all_keeps
            (λ x, ∃ e', x !! l = Some e' ∧ count e' = count e
                        ∧ is_repeating e' = is_repeating e)
            _ cs G h h' _); [|by exists e].
  intros G' c x x' (e1 & Hl1 & Hc1 & Hr1) Hc.
  destruct (@perform_count U G' c x x' l e1 Hc Hl1) as (e2 & Hl2 & Hc2 & Hr2).
  exists e2. split; [done|]. split; congruence.
Qed.

End CallSequences.

Section CountInvariant.
Context `{U : Utils} `{G : Global}.

(** C8.  An element built from a node whose count is missing or an integer
    of at least 1 has a count of at least 1 and is repeating exactly when
    its count exceeds 1; no sequence of [addChild], [addAttribute],
    [copyAttributes], [setContent] and [setPasteContent] calls, on this or
    any other element of the store, changes either field. *)
Theorem count_invariant (node : TreeNode) (syn : string)
    (r : option DataElement) (opts : option (gmap string jsval)) :
  (∀ c, node_count node = Some c → (1 ≤ c)%Z) →
  count_ok (new_ParsedElement node syn r opts)
  ∧ ∀ (h h' : Heap) (l : loc) (cs : list Call),
      h !! l = Some (new_ParsedElement node syn r opts) →
      perform_all cs h = Some h' →
      ∃ e', h' !! l = Some e'
            ∧ count e' = count (new_ParsedElement node syn r opts)
            ∧ is_repeating e' = is_repeating (new_ParsedElement node syn r opts)
            ∧ count_ok e'.
Proof.
  intros Hcount.
  assert (count_ok (new_ParsedElement node syn r opts)) as Hok.
  { unfold count_ok, new_ParsedElement.
    destruct (setContent_core_count (node_text node)
      {| _abbr := r;
         name := match r with Some d => res_name d | None => node_name node end;
         real_name := node_name node;
         count := match node_count node with
                  | Some c => if Z.eqb c 0 then 1%Z else c
                  | None => 1%Z
                  end;
         syntax := syn; _content := Literal ""; _paste_content := "";
         repeat_by_lines := node_is_repeating node;
         is_repeating := match node_count node with
                         | Some c => Z.ltb 1 c
                         | None => false
                         end;
         parent := None;
         has_implicit_name := node_has_implict_name node;
         children := []; options := default ∅ opts;
         attributes := None; _attr_hash := None; value := None |})
      as [-> ->]. simpl.
    destruct (node_count node) as [c|] eqn:Hc.
    - specialize (Hcount c eq_refl).
      destruct (Z.eqb_spec c 0); [lia|].
      split; [done|]. destruct (Z.ltb_spec 1 c); split; (done || lia).
    - split; [lia|]. split; [done|lia]. }
  split; [done|].
  intros h h' l cs Hl Hrun.
  destruct (perform_all_count cs h h' l _ Hrun Hl) as (e' & Hl' & Hc' & Hr').
  exists e'. repeat split; try done; unfold count_ok in *; rewrite ?Hc', ?Hr';
    apply Hok.
Qed.

End CountInvariant.

Lemma count_invariant_witness :
  count_ok (@new_ParsedElement Samples.utils Samples.li3 "html" None None)
  ∧ ∃ e', Samples.after (@perform_all Samples.utils pristine Samples.li_calls Samples.li_store)
            !! 0 = Some e'
          ∧ count e' = 3%Z ∧ is_repeating e' = true.
Proof.
  destruct (@count_invariant Samples.utils pristine Samples.li3 "html" None None)
    as [Hok Hkeep]; [by intros c [= <-]|].
  split; [exact Hok|].
  destruct (Hkeep Samples.li_store
              (Samples.after (@perform_all Samples.utils pristine Samples.li_calls
                                Samples.li_store))
              0 Samples.li_calls eq_refl eq_refl) as (e' & He' & Hc & Hr & _).
  exists e'. split; [exact He'|]. split; [exact Hc | exact Hr].
Defined.

(** ** Positions in the attribute array *)

Section Positions.
Context `{U : Utils} `{G : Global}.

(** An entry keeps its position and its name through any call. *)
Lemma addAttribute_keeps_positions e n v i a :
  attrs_of e !! i = Some a →
  ∃ a', attrs_of (addAttribute n v e) !! i = Some a'
        ∧ attr_name a' = attr_name a.
Proof.
  intros Hi.
  destruct (hash_of e !! n) as [j|] eqn:Hn.
  - destruct (addAttribute_present e n v j Hn) as [-> _].
    destruct (decide (j = i)) as [->|Hne].
    + rewrite list_lookup_alter_eq, Hi. simpl.
      eexists. split; [done|]. apply merge_attr_name.
    + rewrite list_lookup_alter_ne by done. eauto.
  - destruct (inherited n) eqn:Hin.
    + destruct (addAttribute_inherited e n v Hn Hin) as [-> _]. eauto.
    + destruct (addAttribute_new e n v Hn Hin) as [-> _].
      rewrite (lookup_app_l_Some _ _ _ _ Hi). eauto.
Qed.

(** A call for a name that is present changes one value and nothing else:
    same length, same names in the same order. *)
Lemma addAttribute_present_shape e n v :
  attrs_ok e → n ∈ attr_name <$> attrs_of e →
  length (attrs_of (addAttribute n v e)) = length (attrs_of e)
  ∧ attr_name <$> attrs_of (addAttribute n v e) = attr_name <$> attrs_of e
  ∧ ∀ i a, attrs_of e !! i = Some a → attr_name a ≠ n →
           attrs_of (addAttribute n v e) !! i = Some a.
Proof.
  intros Hok Hin. apply list_elem_of_fmap in Hin as (a & -> & Ha).
  apply list_elem_of_lookup in Ha as [j Hj].
  pose proof (hash_complete e Hok j a Hj) as Hn.
  destruct (addAttribute_present e _ v j Hn) as [-> _].
  split; [apply length_alter|]. split.
  - apply list_eq. intros i. rewrite !list_lookup_fmap.
    destruct (decide (j = i)) as [->|Hne].
    + rewrite list_lookup_alter_eq, Hj. simpl. by rewrite merge_attr_name.
    + by rewrite list_lookup_alter_ne.
  - intros i b Hi Hb. rewrite list_lookup_alter_ne; [done|].
    intros ->. congruence.
Qed.

(** A call for a name that is neither present nor inherited appends one
    entry. *)
Lemma addAttribute_absent_shape e n v :
  attrs_ok e → n ∉ attr_name <$> attrs_of e → inherited n = false →
  attrs_of (addAttribute n v e) = attrs_of e ++ [mkAttr n (escaped v)].
Proof.
  intros Hok Hnin Hin.
  destruct (hash_of e !! n) as [j|] eqn:Hn.
  - destruct (hash_sound e Hok n j Hn) as [w Hw]. exfalso. apply Hnin.
    apply list_elem_of_fmap. exists (mkAttr n w).
    split; [done|]. by eapply list_elem_of_lookup_2.
  - by destruct (addAttribute_new e n v Hn Hin) as [-> _].
Qed.

(** A call for a name that is absent but inherited adds nothing. *)
Lemma addAttribute_inherited_shape e n v :
  attrs_ok e → n ∉ attr_name <$> attrs_of e → inherited n = true →
  attrs_of (addAttribute n v e) = attrs_of e.
Proof.
  intros Hok Hnin Hin.
  destruct (hash_of e !! n) as [j|] eqn:Hn.
  - destruct (hash_sound e Hok n j Hn) as [w Hw]. exfalso. apply Hnin.
    apply list_elem_of_fmap. exists (mkAttr n w).
    split; [done|]. by eapply list_elem_of_lookup_2.
  - by destruct (addAttribute_inherited e n v Hn Hin) as [-> _].
Qed.

End Positions.

Lemma copyAttributes_keeps_positions `{U : Utils} `{G : Global} src e i a :
  attrs_of e !! i = Some a →
  ∃ a', attrs_of (copyAttributes src e) !! i = Some a'
        ∧ attr_name a' = attr_name a.
Proof.
  intros Hi.
  apply (copyAttributes_keeps
           (λ x _, ∃ a', attrs_of x !! i = Some a' ∧ attr_name a' = attr_name a));
    [|by exists a].
  intros G' n v x (a1 & H1 & Hn1).
  destruct (@addAttribute_keeps_positions U G' x n v i a1 H1) as (a2 & H2 & Hn2).
  exists a2. split; [done|congruence].
Qed.

(** ** Every element the interface builds has its attributes in step *)

Section Reachable.
Context `{U : Utils} `{G : Global} `{R : Resources}.

Lemma attrs_ok_same e e' :
  attributes e' = attributes e → _attr_hash e' = _attr_hash e →
  attrs_ok e → attrs_ok e'.
Proof.
  intros Ha Hh [Hs Hc]. split; unfold attrs_of, hash_of in *; rewrite Ha, Hh; done.
Qed.

Lemma setContent_attrs_ok data e : attrs_ok e → attrs_ok (setContent data e).
Proof. apply attrs_ok_same; by destruct data. Qed.

Lemma parsedElement_attrs_ok node syn resource opts :
  attrs_ok (parsedElement node syn resource opts).1.
Proof.
  unfold parsedElement, parsedElement_run, lbind. simpl.
  match goal with
  | |- context [_abbr ?e] =>
      destruct (_abbr e); simpl;
      apply @copyAttributes_attrs_ok; [apply @copyAttributes_attrs_ok|];
      apply new_ParsedElement_attrs_ok
  end.
Qed.

Lemma parsedSnippet_attrs_ok node syn resource opts :
  attrs_ok (parsedSnippet node syn resource opts).1.
Proof.
  destruct (parsedSnippet_result node syn resource opts) as (r & val & -> & _).
  apply copyAttributes_attrs_ok.
  by destruct (synthetic_attributes node syn r opts val) as [Hok _].
Qed.

Lemma on_this_attrs_ok (f : ParsedElement → ParsedElement) this h h' :
  (∀ x, attrs_ok x → attrs_ok (f x)) →
  heap_attrs_ok h → on_this f this h = Some h' → heap_attrs_ok h'.
Proof.
  intros Hf Hh. unfold on_this.
  destruct (h !! this) as [t|] eqn:Ht; [|done]. intros [= <-] l e.
  destruct (decide (this = l)) as [->|Hne].
  - rewrite lookup_insert_eq. intros [= <-]. apply Hf. by apply (Hh l).
  - rewrite lookup_insert_ne by done. apply Hh.
Qed.

Lemma addChild_attrs_ok this c h h' :
  heap_attrs_ok h → addChild this c h = Some h' → heap_attrs_ok h'.
Proof.
  intros Hh. unfold addChild.
  destruct (h !! c) as [ec|] eqn:Hc; [|done].
  assert (heap_attrs_ok (<[c:=set_parent (Some this) ec]> h)) as Hh1.
  { intros l e. destruct (decide (c = l)) as [->|Hne].
    - rewrite lookup_insert_eq. intros [= <-].
      by apply (attrs_ok_same ec), (Hh l).
    - rewrite lookup_insert_ne by done. apply Hh. }
  destruct (<[c:=set_parent (Some this) ec]> h !! this) as [t|] eqn:Ht; [|done].
  intros [= <-] l e. destruct (decide (this = l)) as [->|Hne].
  - rewrite lookup_insert_eq. intros [= <-].
    by apply (attrs_ok_same t), (Hh1 l).
  - rewrite lookup_insert_ne by done. apply Hh1.
Qed.

Lemma perform_attrs_ok c h h' :
  heap_attrs_ok h → perform c h = Some h' → heap_attrs_ok h'.
Proof.
  intros Hh. destruct c as [this c|this n v|this src|this data|this val]; simpl.
  - by apply addChild_attrs_ok.
  - apply on_this_attrs_ok; [|done]. intros x. apply addAttribute_attrs_ok.
  - apply on_this_attrs_ok; [|done]. intros x. apply copyAttributes_attrs_ok.
  - apply on_this_attrs_ok; [|done]. intros x. apply setContent_attrs_ok.
  - apply on_this_attrs_ok; [|done]. intros x. by apply attrs_ok_same.
Qed.

End Reachable.

Section ReachableAll.
Context `{U : Utils}.

Lemma perform_all_attrs_ok `{G : Global} cs h h' :
  heap_attrs_ok h → perform_all cs h = Some h' → heap_attrs_ok h'.
Proof.
  apply (perform_all_keeps heap_attrs_ok).
  intros G' c x x'. apply (@perform_attrs_ok U G').
Qed.

(** Names stay unique through every sequence of calls. *)
Corollary perform_all_names_unique `{G : Global} cs h h' l e :
  heap_attrs_ok h → perform_all cs h = Some h' → h' !! l = Some e →
  NoDup (attr_name <$> attrs_of e).
Proof.
  intros Hh Hrun Hl. apply attrs_ok_NoDup.
  by apply (perform_all_attrs_ok cs h h' Hh Hrun l).
Qed.

End ReachableAll.
(** * Further properties of the code *)

(** ** Attribute names *)

Lemma heap_attrs_ok_singleton `{U : Utils} l node syn r opts :
  heap_attrs_ok (<[l := new_ParsedElement node syn r opts]> ∅).
Proof.
  intros l' e. destruct (decide (l = l')) as [->|Hne].
  - rewrite lookup_insert_eq. intros [= <-]. apply new_ParsedElement_attrs_ok.
  - by rewrite lookup_insert_ne, lookup_empty.
Qed.

(** X1.  Whatever the node and the definition list, and however often they
    repeat a name, the element either factory returns carries every attribute
    name once. *)
Theorem factory_names_unique `{U : Utils} `{G : Global} `{R : Resources} (node : TreeNode)
    (syn : string) (resource : ResourceArg) (opts : option (gmap string jsval)) :
  NoDup (attr_name <$> attrs_of (parsedElement node syn resource opts).1)
  ∧ NoDup (attr_name <$> attrs_of (parsedSnippet node syn resource opts).1).
Proof.
  split; apply attrs_ok_NoDup;
    [apply parsedElement_attrs_ok | apply parsedSnippet_attrs_ok].
Qed.

(** X2.  In a store whose elements have their attribute array and dictionary
    in step, every sequence of [addChild], [addAttribute], [copyAttributes],
    [setContent] and [setPasteContent] calls leaves every element with
    pairwise distinct attribute names. *)
Theorem calls_keep_names_unique `{U : Utils} `{G : Global} (cs : list Call) (h h' : Heap)
    (l : loc) (e : ParsedElement) :
  heap_attrs_ok h → perform_all cs h = Some h' → h' !! l = Some e →
  NoDup (attr_name <$> attrs_of e).
Proof.
  intros Hh Hrun Hl. apply attrs_ok_NoDup.
  by apply (perform_all_attrs_ok cs h h' Hh Hrun l).
Qed.

Lemma calls_keep_names_unique_witness :
  ∃ e, Samples.after
         (@perform_all Samples.utils pristine
            [CallAddAttribute 0 "id" (Some "x"); CallAddAttribute 0 "id" (Some "y");
             CallAddAttribute 0 "class" (Some "a")]
            Samples.li_store) !! 0 = Some e
       ∧ attr_name <$> attrs_of e = ["id"; "class"]
       ∧ NoDup (attr_name <$> attrs_of e).
Proof.
  eexists. split; [reflexivity|]. split; [reflexivity|].
  apply (@calls_keep_names_unique Samples.utils pristine
           [CallAddAttribute 0 "id" (Some "x"); CallAddAttribute 0 "id" (Some "y");
            CallAddAttribute 0 "class" (Some "a")]
           Samples.li_store
           (Samples.after
              (@perform_all Samples.utils pristine
                 [CallAddAttribute 0 "id" (Some "x"); CallAddAttribute 0 "id" (Some "y");
                  CallAddAttribute 0 "class" (Some "a")]
                 Samples.li_store)) 0);
    [apply heap_attrs_ok_singleton | reflexivity | reflexivity].
Defined.

(** ** Positions *)

Section KeptPositions.
Context `{U : Utils} `{G : Global}.

Lemma on_this_positions (f : ParsedElement → ParsedElement) this h h' l e i a :
  (∀ x j b, attrs_of x !! j = Some b →
            ∃ b', attrs_of (f x) !! j = Some b' ∧ attr_name b' = attr_name b) →
  on_this f this h = Some h' → h !! l = Some e → attrs_of e !! i = Some a →
  ∃ e' a', h' !! l = Some e' ∧ attrs_of e' !! i = Some a'
           ∧ attr_name a' = attr_name a.
Proof.
  intros Hf. unfold on_this.
  destruct (h !! this) as [t|] eqn:Ht; [|done]. intros [= <-] Hl Hi.
  destruct (decide (this = l)) as [->|Hne].
  - rewrite lookup_insert_eq. rewrite Ht in Hl. injection Hl as ->.
    destruct (Hf e i a Hi) as (b' & Hb' & Hn). eauto.
  - rewrite lookup_insert_ne by done. eauto.
Qed.

Lemma addChild_attributes this c h h' l e :
  addChild this c h = Some h' → h !! l = Some e →
  ∃ e', h' !! l = Some e' ∧ attributes e' = attributes e
        ∧ _attr_hash e' = _attr_hash e.
Proof.
  unfold addChild.
  destruct (h !! c) as [ec|] eqn:Hc; [|done].
  destruct (<[c:=set_parent (Some this) ec]> h !! this) as [t|] eqn:Ht; [|done].
  intros [= <-] Hl.
  destruct (decide (this = l)) as [->|Hnt].
  - rewrite lookup_insert_eq. eexists. split; [done|]. simpl.
    destruct (decide (c = l)) as [->|Hnc].
    + rewrite lookup_insert_eq in Ht. by simplify_eq.
    + rewrite lookup_insert_ne in Ht by done. by simplify_eq.
  - rewrite lookup_insert_ne by done.
    destruct (decide (c = l)) as [->|Hnc].
    + rewrite lookup_insert_eq. eexists. split; [done|]. by simplify_eq.
    + rewrite lookup_insert_ne by done. eauto.
Qed.

Lemma perform_positions c h h' l e i a :
  perform c h = Some h' → h !! l = Some e → attrs_of e !! i = Some a →
  ∃ e' a', h' !! l = Some e' ∧ attrs_of e' !! i = Some a'
           ∧ attr_name a' = attr_name a.
Proof.
  destruct c as [this c|this n v|this src|this data|this val]; simpl.
  - intros Hadd Hl Hi.
    destruct (addChild_attributes this c h h' l e Hadd Hl) as (e' & He' & Ha & _).
    exists e', a. split; [done|]. split; [|done].
    unfold attrs_of in *. by rewrite Ha.
  - apply on_this_positions. intros x j b. apply addAttribute_keeps_positions.
  - apply on_this_positions. intros x j b. apply copyAttributes_keeps_positions.
  - apply on_this_positions. intros x j b Hb. exists b. split; [|done].
    by destruct data.
  - apply on_this_positions. intros x j b Hb. by exists b.
Qed.

End KeptPositions.

(** X3.  An attribute never moves and is never removed: once an element holds
    an entry at some index, every later sequence of calls leaves an entry of
    the same name at that index (only its value may change). *)
Theorem calls_keep_positions `{U : Utils} `{G : Global} (cs : list Call)
    (h h' : Heap) (l : loc) (e : ParsedElement) (i : nat) (a : Attr) :
  perform_all cs h = Some h' → h !! l = Some e → attrs_of e !! i = Some a →
  ∃ e' a', h' !! l = Some e' ∧ attrs_of e' !! i = Some a'
           ∧ attr_name a' = attr_name a.
Proof.
  intros Hrun Hl Hi. revert Hrun.
  refine (perform_all_keeps
            (λ x, ∃ e' a', x !! l = Some e' ∧ attrs_of e' !! i = Some a'
                           ∧ attr_name a' = attr_name a)
            _ cs G h h' _); [|by exists e, a].
  intros G' c x x' (e1 & a1 & Hl1 & Hi1 & Hn1) Hc.
  destruct (@perform_positions U G' c x x' l e1 i a1 Hc Hl1 Hi1)
    as (e2 & a2 & Hl2 & Hi2 & Hn2).
  exists e2, a2. split; [done|]. split; [done|congruence].
Qed.


Lemma calls_keep_positions_witness :
  ∃ e' a', Samples.after
             (@perform_all Samples.utils pristine
                [CallAddAttribute 0 "class" (Some "a"); CallAddAttribute 0 "id" (Some "y")]
                (<[0 := @addAttribute Samples.utils pristine "id" (Some "x") Samples.div]> ∅))
             !! 0 = Some e'
           ∧ attrs_of e' !! 0 = Some a' ∧ attr_name a' = "id".
Proof.
  apply (@calls_keep_positions Samples.utils pristine
           [CallAddAttribute 0 "class" (Some "a"); CallAddAttribute 0 "id" (Some "y")]
           (<[0 := @addAttribute Samples.utils pristine "id" (Some "x") Samples.div]> ∅)
           (Samples.after
              (@perform_all Samples.utils pristine
                 [CallAddAttribute 0 "class" (Some "a"); CallAddAttribute 0 "id" (Some "y")]
                 (<[0 := @addAttribute Samples.utils pristine "id" (Some "x") Samples.div]> ∅)))
           0 (@addAttribute Samples.utils pristine "id" (Some "x") Samples.div)
           0 (mkAttr "id" "x"));
    reflexivity.
Defined.

(** ** Names the dictionary inherits *)

Section InheritedNames.
Context `{U : Utils}.

(** Names that were inherited at the start stay out of the array, in
    whatever later state a call runs. *)
Lemma addAttribute_plain_names (G0 G : Global) n v e :
  grows G0 G →
  Forall (λ a, @inherited G0 (attr_name a) = false) (attrs_of e) →
  Forall (λ a, @inherited G0 (attr_name a) = false)
         (attrs_of (@addAttribute U G n v e)).
Proof.
  intros Hg He. destruct (hash_of e !! n) as [i|] eqn:Hn.
  - destruct (@addAttribute_present U G e n v i Hn) as [-> _].
    apply Forall_lookup. intros j b.
    destruct (decide (i = j)) as [->|Hne].
    + rewrite list_lookup_alter_eq.
      destruct (attrs_of e !! j) as [a|] eqn:Ha; [|done]. simpl. intros [= <-].
      rewrite merge_attr_name. by apply (proj1 (Forall_lookup _ _) He j).
    + rewrite list_lookup_alter_ne by done. apply (proj1 (Forall_lookup _ _) He j).
  - destruct (@inherited G n) eqn:Hin.
    + by destruct (@addAttribute_inherited U G e n v Hn Hin) as [-> _].
    + destruct (@addAttribute_new U G e n v Hn Hin) as [-> _].
      apply Forall_app. split; [done|]. apply Forall_singleton. simpl.
      by apply (inherited_grows G0 G).
Qed.

Lemma copyAttributes_plain_names (G0 G : Global) src e :
  grows G0 G →
  Forall (λ a, @inherited G0 (attr_name a) = false) (attrs_of e) →
  Forall (λ a, @inherited G0 (attr_name a) = false)
         (attrs_of (@copyAttributes U G src e))
  ∧ grows G0 (@copyAttributes_global U G src e).
Proof.
  intros Hg He.
  apply (copyAttributes_keeps
           (λ x G', Forall (λ a, @inherited G0 (attr_name a) = false) (attrs_of x)
                    ∧ grows G0 G')); [|done].
  intros G' n v x [Hx HG']. split.
  - by apply addAttribute_plain_names.
  - eapply grows_trans; [done|apply addAttribute_grows].
Qed.

Lemma new_ParsedElement_no_attrs node syn r opts :
  attrs_of (new_ParsedElement node syn r opts) = [].
Proof.
  unfold attrs_of. by destruct (new_ParsedElement_unset node syn r opts) as [-> _].
Qed.

Lemma plain_names_none (G0 : Global) n e :
  @inherited G0 n = true →
  Forall (λ a, @inherited G0 (attr_name a) = false) (attrs_of e) →
  attrs_named n e = [].
Proof.
  intros Hin He. apply filter_none. intros a Ha <-.
  pose proof (proj1 (Forall_forall _ _) He a Ha). congruence.
Qed.

(** X4.  A name that the dictionary inherits from [Object.prototype] never
    becomes an attribute: whatever the node and the definition list under such
    a name, the element either factory returns has no entry for it. *)
Theorem inherited_names_dropped `{G : Global} `{R : Resources} (node : TreeNode)
    (syn : string) (resource : ResourceArg) (opts : option (gmap string jsval))
    (n : string) :
  inherited n = true →
  attrs_named n (parsedElement node syn resource opts).1 = []
  ∧ attrs_named n (parsedSnippet node syn resource opts).1 = [].
Proof.
  intros Hin. split; apply (plain_names_none G n _ Hin).
  - destruct (parsedElement_result node syn resource opts)
      as (r & e1 & G1 & Hdef & _ & -> & _).
    assert (Forall (λ a, @inherited G (attr_name a) = false) (attrs_of e1)
            ∧ grows G G1) as [H1 Hg1].
    { destruct r as [d|]; destruct Hdef as [-> ->].
      - apply copyAttributes_plain_names; [apply grows_refl|].
        by rewrite new_ParsedElement_no_attrs.
      - split; [by rewrite new_ParsedElement_no_attrs | apply grows_refl]. }
    by apply copyAttributes_plain_names.
  - destruct (parsedSnippet_result node syn resource opts) as (r & val & -> & _).
    apply copyAttributes_plain_names; [apply grows_refl|].
    do 2 (apply addAttribute_plain_names; [apply grows_refl|]).
    change (attrs_of (set_value val (new_ParsedElement node syn r opts)))
      with (attrs_of (new_ParsedElement node syn r opts)).
    by rewrite new_ParsedElement_no_attrs.
Qed.

End InheritedNames.

Lemma inherited_names_dropped_witness :
  attrs_of
    (@parsedElement Samples.utils pristine Samples.store
       (Samples.node "a"
          (Some [mkSrcAttr "toString" (Some "x"); mkSrcAttr "href" (Some "y")]))
       "html" RAbsent None).1
  = [mkAttr "href" "y"]
  ∧ attrs_named "toString"
      (@parsedElement Samples.utils pristine Samples.store
         (Samples.node "a"
            (Some [mkSrcAttr "toString" (Some "x"); mkSrcAttr "href" (Some "y")]))
         "html" RAbsent None).1
    = [].
Proof.
  split; [reflexivity|].
  apply (@inherited_names_dropped Samples.utils pristine Samples.store
           (Samples.node "a"
              (Some [mkSrcAttr "toString" (Some "x"); mkSrcAttr "href" (Some "y")]))
           "html" RAbsent None "toString" eq_refl).
Defined.

(** ** Layers of attributes *)

Section Layers.
Context `{U : Utils} `{G : Global}.

Lemma attrs_named_current e n :
  attrs_ok e →
  attrs_named n e = match current n e with Some v => [mkAttr n v] | None => [] end.
Proof.
  intros Hok. unfold current.
  destruct (attrs_named_short e n Hok) as [Hnil|[a Ha]].
  - by rewrite Hnil.
  - rewrite Ha. simpl. pose proof (attrs_named_elem_name e n a Ha) as Hn.
    destruct a. simpl in *. by subst.
Qed.

Lemma addAttribute_current_same e n v :
  attrs_ok e → inherited n = false →
  current n (addAttribute n v e)
  = Some (match current n e with
          | Some old => attr_value (merge_attr n (escaped v) (mkAttr n old))
          | None => escaped v
          end).
Proof.
  intros Hok Hin. pose proof (attrs_named_current e n Hok) as Hcur.
  destruct (current n e) as [old|].
  - unfold current. by rewrite (addAttribute_named_present e n v _ Hok Hcur).
  - unfold current. by rewrite (addAttribute_named_new e n v Hok Hcur Hin).
Qed.

Lemma addAttribute_current_other e m n v :
  attrs_ok e → m ≠ n → current n (addAttribute m v e) = current n e.
Proof. intros Hok Hmn. unfold current. by rewrite addAttribute_named_other. Qed.

Lemma layer_unnamed n cur l : unnamed n l → layer n cur l = cur.
Proof.
  unfold layer. revert cur.
  induction l as [|a l IH]; intros cur Hl; [done|].
  simpl. rewrite decide_False by (apply Hl; left).
  apply IH. intros b Hb. apply Hl. by right.
Qed.

Lemma layer_app n cur l1 l2 :
  layer n cur (l1 ++ l2) = layer n (layer n cur l1) l2.
Proof. unfold layer. apply foldl_app. Qed.

Lemma layer_cons_same n cur v l :
  layer n cur (mkSrcAttr n v :: l)
  = layer n (Some (match cur with
                   | Some old => attr_value (merge_attr n (escaped v) (mkAttr n old))
                   | None => escaped v
                   end)) l.
Proof. unfold layer. simpl. by rewrite decide_True. Qed.

Lemma layer_last n cur v l :
  n ≠ "class" → names_last n v l → layer n cur l = Some (escaped v).
Proof.
  intros Hn (l1 & l2 & -> & Hl2).
  rewrite layer_app, layer_cons_same, (layer_unnamed n _ l2 Hl2).
  unfold merge_attr. apply String.eqb_neq in Hn. rewrite Hn.
  by destruct (layer n cur l1).
Qed.

Lemma layer_once_class cur v l :
  names_once "class" v l →
  layer "class" cur l
  = Some (match cur with
          | Some old => old +:+ (if str_truthy old then " " else "") +:+ escaped v
          | None => escaped v
          end).
Proof.
  intros (l1 & l2 & -> & Hl1 & Hl2).
  by rewrite layer_app, (layer_unnamed _ _ l1 Hl1), layer_cons_same,
    (layer_unnamed _ _ l2 Hl2).
Qed.

Lemma current_new node syn r opts n :
  current n (new_ParsedElement node syn r opts) = None.
Proof.
  unfold current, attrs_named. by rewrite new_ParsedElement_no_attrs.
Qed.

End Layers.

(** Copying a list builds, under every name that is still not inherited when
    the copy ends, the value the layers give. *)
Lemma copyAttributes_layer `{U : Utils} (G : Global) l e n :
  attrs_ok e →
  @inherited (@copyAttributes_global U G (Some l) e) n = false →
  current n (@copyAttributes U G (Some l) e) = layer n (current n e) l.
Proof.
  revert G e. induction l as [|a l IH]; intros G e Hok Hin; [done|].
  rewrite copyAttributes_cons. rewrite copyAttributes_global_cons in Hin.
  unfold layer. simpl. fold (layer n).
  rewrite IH; [|by apply addAttribute_attrs_ok|done]. f_equal.
  destruct (decide (src_name a = n)) as [<-|Hne].
  - apply addAttribute_current_same; [done|].
    refine (inherited_grows _ _ _ _ Hin).
    exact (grows_trans _ _ _ (@addAttribute_grows U G e _ _)
             (@copyAttributes_grows U _ _ _)).
  - by apply addAttribute_current_other.
Qed.

Lemma copyAttributes_layer_src `{U : Utils} (G : Global) src e n :
  attrs_ok e →
  @inherited (@copyAttributes_global U G src e) n = false →
  current n (@copyAttributes U G src e) = layer n (current n e) (default [] src).
Proof.
  destruct src as [l|]; [apply copyAttributes_layer|done].
Qed.

(** ** The tag factory *)

Section TagFactory.
Context `{U : Utils} `{G : Global} `{R : Resources}.

(** The value the element holds under a name that is still not inherited
    when the factory returns: the layers of the definition, then the node's. *)
Lemma parsedElement_current node syn resource opts n :
  @inherited (parsedElement_global node syn resource opts) n = false →
  current n (parsedElement node syn resource opts).1
  = layer n
      (layer n None
         (default []
            (_abbr (parsedElement node syn resource opts).1 ≫= res_attributes)))
      (default [] (node_attributes node)).
Proof.
  intros Hin.
  destruct (parsedElement_result node syn resource opts)
    as (r & e1 & G1 & Hdef & -> & -> & Hg).
  rewrite Hg in Hin.
  pose proof (new_ParsedElement_attrs_ok node syn r opts) as Hok0.
  pose proof (current_new node syn r opts n) as Hc0.
  assert (attrs_ok e1
          ∧ current n e1 = layer n None (default [] (r ≫= res_attributes)))
    as [Hok1 Hc1].
  { destruct r as [a|]; destruct Hdef as [-> ->]; simpl.
    - split; [by apply copyAttributes_attrs_ok|].
      rewrite (copyAttributes_layer_src G), Hc0; [done|done|].
      refine (inherited_grows _ _ _ _ Hin). apply @copyAttributes_grows.
    - by rewrite Hc0. }
  by rewrite (copyAttributes_layer_src G1), Hc1.
Qed.

(** X5.  What the node says wins: for a name other than ["class"] that the
    dictionary still does not inherit when the tag factory returns, the
    element holds the escaped value of the node's last entry of that name,
    whatever the definition lists. *)
Theorem node_attribute_wins (node : TreeNode) (syn : string)
    (resource : ResourceArg) (opts : option (gmap string jsval))
    (n : string) (v : option string) (l : list SrcAttr) :
  n ≠ "class" →
  @inherited (parsedElement_global node syn resource opts) n = false →
  node_attributes node = Some l → names_last n v l →
  attrs_named n (parsedElement node syn resource opts).1 = [mkAttr n (escaped v)].
Proof.
  intros Hn Hin Hnode Hlast.
  rewrite (attrs_named_current _ n (parsedElement_attrs_ok node syn resource opts)).
  by rewrite (parsedElement_current node syn resource opts n Hin), Hnode,
    (layer_last n _ v l Hn Hlast).
Qed.

(** X6.  A default survives where the node is silent: when the element was
    built from an element definition and the node has no entry of a name
    (other than ["class"], and still not inherited when the tag factory
    returns), the element holds the escaped value of the definition's last
    entry of that name. *)
Theorem default_attribute_kept (node : TreeNode) (syn : string)
    (resource : ResourceArg) (opts : option (gmap string jsval))
    (n dn : string) (v : option string) (dl : list SrcAttr) :
  n ≠ "class" →
  @inherited (parsedElement_global node syn resource opts) n = false →
  _abbr (parsedElement node syn resource opts).1 = Some (ElementDef dn (Some dl)) →
  names_last n v dl →
  unnamed n (default [] (node_attributes node)) →
  attrs_named n (parsedElement node syn resource opts).1 = [mkAttr n (escaped v)].
Proof.
  intros Hn Hin Habbr Hlast Hnode.
  rewrite (attrs_named_current _ n (parsedElement_attrs_ok node syn resource opts)).
  rewrite (parsedElement_current node syn resource opts n Hin), Habbr. simpl.
  by rewrite (layer_unnamed n _ _ Hnode), (layer_last n _ v dl Hn Hlast).
Qed.

(** X7.  Class values add up, the definition's first: when the definition and
    the node each list one class, the element holds the definition's escaped
    value, a space (none if that value is empty), then the node's. *)
Theorem class_layers_combine (node : TreeNode) (syn : string)
    (resource : ResourceArg) (opts : option (gmap string jsval))
    (dn : string) (a b : option string) (dl nl : list SrcAttr) :
  _abbr (parsedElement node syn resource opts).1 = Some (ElementDef dn (Some dl)) →
  names_once "class" a dl →
  node_attributes node = Some nl → names_once "class" b nl →
  attrs_named "class" (parsedElement node syn resource opts).1
  = [mkAttr "class"
       (escaped a +:+ (if str_truthy (escaped a) then " " else "") +:+ escaped b)].
Proof.
  intros Habbr Hdl Hnode Hnl.
  rewrite (attrs_named_current _ _ (parsedElement_attrs_ok node syn resource opts)).
  rewrite (parsedElement_current node syn resource opts "class" eq_refl), Habbr, Hnode.
  simpl. by rewrite (layer_once_class None a dl Hdl), (layer_once_class _ b nl Hnl).
Qed.

End TagFactory.

Lemma node_attribute_wins_witness :
  attrs_named "href"
    (@parsedElement Samples.utils pristine Samples.links
       (Samples.node "a" (Some [mkSrcAttr "href" (Some "x"); mkSrcAttr "href" (Some "y")]))
       "html" RAbsent None).1
  = [mkAttr "href" "y"].
Proof.
  apply (@node_attribute_wins Samples.utils pristine Samples.links
           (Samples.node "a" (Some [mkSrcAttr "href" (Some "x"); mkSrcAttr "href" (Some "y")]))
           "html" RAbsent None "href" (Some "y")
           [mkSrcAttr "href" (Some "x"); mkSrcAttr "href" (Some "y")]);
    [discriminate | reflexivity | reflexivity |].
  exists [mkSrcAttr "href" (Some "x")], []. split; [reflexivity | apply unnamed_nil].
Defined.

Lemma default_attribute_kept_witness :
  attrs_named "href"
    (@parsedElement Samples.utils pristine Samples.links
       (Samples.node "a" (Some [mkSrcAttr "title" (Some "t")])) "html" RAbsent None).1
  = [mkAttr "href" ""].
Proof.
  apply (@default_attribute_kept Samples.utils pristine Samples.links
           (Samples.node "a" (Some [mkSrcAttr "title" (Some "t")])) "html" RAbsent None
           "href" "a" (Some "")
           [mkSrcAttr "href" (Some ""); mkSrcAttr "class" (Some "link")]);
    [discriminate | reflexivity | reflexivity | |].
  - exists [], [mkSrcAttr "class" (Some "link")]. split; [reflexivity|].
    apply unnamed_cons; [discriminate | apply unnamed_nil].
  - apply unnamed_cons; [discriminate | apply unnamed_nil].
Defined.

Lemma class_layers_combine_witness :
  attrs_named "class"
    (@parsedElement Samples.utils pristine Samples.links
       (Samples.node "a" (Some [mkSrcAttr "class" (Some "big")])) "html" RAbsent None).1
  = [mkAttr "class" "link big"].
Proof.
  apply (@class_layers_combine Samples.utils pristine Samples.links
           (Samples.node "a" (Some [mkSrcAttr "class" (Some "big")])) "html" RAbsent None
           "a" (Some "link") (Some "big")
           [mkSrcAttr "href" (Some ""); mkSrcAttr "class" (Some "link")]
           [mkSrcAttr "class" (Some "big")]);
    [reflexivity | | reflexivity |].
  - exists [mkSrcAttr "href" (Some "")], []. split; [reflexivity|]. split.
    + apply unnamed_cons; [discriminate | apply unnamed_nil].
    + apply unnamed_nil.
  - exists [], []. split; [reflexivity|]. split; apply unnamed_nil.
Defined.

Section StoreTraffic.
Context `{U : Utils} `{G : Global} `{R : Resources}.

(** X8.  The tag factory consults the store sparingly: never more than twice,
    only for abbreviations, and not at all when it is handed a name, or an
    entry that is no reference, or when it is handed nothing and the node has
    no name. *)
Theorem parsedElement_requests (node : TreeNode) (syn : string)
    (resource : ResourceArg) (opts : option (gmap string jsval)) :
  (length (parsedElement node syn resource opts).2 ≤ 2)%nat
  ∧ (∀ q, q ∈ (parsedElement node syn resource opts).2 →
          ∃ n, q = QAbbreviation syn n)
  ∧ (∀ s, resource = RName s → (parsedElement node syn resource opts).2 = [])
  ∧ (∀ r, resource = REntry r → is_reference r = false →
          (parsedElement node syn resource opts).2 = [])
  ∧ (resource = RAbsent → name_truthy (node_name node) = false →
     (parsedElement node syn resource opts).2 = []).
Proof.
  unfold parsedElement, parsedElement_run, lbind, res_getAbbreviation, lret.
  split; [|split; [|split; [|split]]].
  - destruct resource as [|s|r]; simpl.
    + destruct (name_truthy (node_name node)); simpl.
      * destruct (getAbbreviation syn (node_name node)) as [d|]; simpl; [|lia].
        destruct (is_reference d); simpl; lia.
      * lia.
    + lia.
    + destruct (is_reference r); simpl; lia.
  - intros q. destruct resource as [|s|r]; simpl.
    + destruct (name_truthy (node_name node)); simpl.
      * destruct (getAbbreviation syn (node_name node)) as [d|]; simpl.
        -- destruct (is_reference d); simpl; intros Hq;
             repeat (apply elem_of_cons in Hq as [->|Hq]; [eauto|]);
             by apply elem_of_nil in Hq.
        -- intros Hq. repeat (apply elem_of_cons in Hq as [->|Hq]; [eauto|]).
           by apply elem_of_nil in Hq.
      * intros Hq. by apply elem_of_nil in Hq.
    + intros Hq. by apply elem_of_nil in Hq.
    + destruct (is_reference r); simpl; intros Hq;
        repeat (apply elem_of_cons in Hq as [->|Hq]; [eauto|]);
        by apply elem_of_nil in Hq.
  - by intros s ->.
  - intros r -> Hr. simpl. by rewrite Hr.
  - intros -> Hn. simpl. by rewrite Hn.
Qed.

(** X9.  No match is no error: when nothing was handed in and the store has no
    entry for the node's name, or answers with a reference that leads
    nowhere, the element is built without a definition; it takes the node's
    name and exactly the attributes the node alone would give it. *)
Theorem parsedElement_falls_back (node : TreeNode) (syn : string)
    (opts : option (gmap string jsval)) :
  (getAbbreviation syn (node_name node) = None
   ∨ ∃ d, getAbbreviation syn (node_name node) = Some (ReferenceDef d)
          ∧ getAbbreviation syn (Some d) = None) →
  (parsedElement node syn RAbsent opts).1
  = copyAttributes (node_attributes node) (new_ParsedElement node syn None opts)
  ∧ _abbr (parsedElement node syn RAbsent opts).1 = None
  ∧ name (parsedElement node syn RAbsent opts).1 = node_name node.
Proof.
  intros Hmiss.
  assert ((parsedElement node syn RAbsent opts).1
          = copyAttributes (node_attributes node) (new_ParsedElement node syn None opts))
    as Hres.
  { unfold parsedElement, parsedElement_run, lbind, res_getAbbreviation, lret. simpl.
    destruct (name_truthy (node_name node)); simpl.
    - destruct Hmiss as [->|(d & -> & Hd)]; simpl.
      + by rewrite new_ParsedElement_abbr.
      + rewrite Hd. by rewrite new_ParsedElement_abbr.
    - by rewrite new_ParsedElement_abbr. }
  rewrite Hres. split; [done|].
  pose proof (copyAttributes_core (node_attributes node)
                (new_ParsedElement node syn None opts)) as Hcore.
  unfold core in Hcore. injection Hcore as -> -> _ _ _ _ _ _ _ _ _ _ _ _.
  by rewrite new_ParsedElement_abbr, new_ParsedElement_name.
Qed.

End StoreTraffic.

Lemma parsedElement_falls_back_witness :
  name (@parsedElement Samples.utils pristine Samples.links (Samples.node "lnk" None)
          "html" RAbsent None).1
  = Some "lnk".
Proof.
  apply (@parsedElement_falls_back Samples.utils pristine Samples.links
           (Samples.node "lnk" None) "html" None).
  right. exists "nowhere". split; reflexivity.
Defined.

(** ** The snippet factory *)

Section SnippetValue.
Context `{U : Utils} `{G : Global}.

Lemma copyAttributes_value src e : value (copyAttributes src e) = value e.
Proof.
  pose proof (copyAttributes_core src e) as Hcore. unfold core in Hcore.
  by injection Hcore as _ _ _ _ _ _ _ _ _ _ _ _ _ ->.
Qed.

Lemma addAttribute_value n v e : value (addAttribute n v e) = value e.
Proof.
  pose proof (addAttribute_core n v e) as Hcore. unfold core in Hcore.
  by injection Hcore as _ _ _ _ _ _ _ _ _ _ _ _ _ ->.
Qed.

End SnippetValue.

Section SnippetFactory.
Context `{U : Utils} `{G : Global}.

(** X10.  The snippet text: handed a text or a snippet entry, the snippet
    factory escapes that and leaves the store alone; handed nothing, it asks
    the store once, for the snippet under the node's name, and escapes the
    answer.  Either way the result is kept in [value], and no abbreviation is
    ever looked up. *)
Theorem parsedSnippet_value `{R : Resources} (node : TreeNode) (syn : string)
    (resource : ResourceArg) (opts : option (gmap string jsval)) :
  (∀ s, resource = RName s ∨ resource = REntry (SnippetDef s) →
        value (parsedSnippet node syn resource opts).1 = Some (escaped (Some s))
        ∧ (parsedSnippet node syn resource opts).2 = [])
  ∧ (resource = RAbsent →
     value (parsedSnippet node syn resource opts).1
     = Some (escaped (Some (getSnippet syn (node_name node))))
     ∧ (parsedSnippet node syn resource opts).2 = [QSnippet syn (node_name node)])
  ∧ (∀ q, q ∈ (parsedSnippet node syn resource opts).2 →
          ∃ n, q = QSnippet syn n).
Proof.
  split; [|split].
  - intros s [-> | ->]; unfold parsedSnippet, parsedSnippet_run, lbind, lret;
      simpl; (split; [|done]);
      (etrans; [apply @copyAttributes_value|]);
      (etrans; [apply @addAttribute_value|]);
      (etrans; [apply @addAttribute_value|]); done.
  - intros ->. unfold parsedSnippet, parsedSnippet_run, lbind, lret, res_getSnippet.
    simpl. split; [|by rewrite new_ParsedElement_name].
    etrans; [apply @copyAttributes_value|].
    etrans; [apply @addAttribute_value|].
    etrans; [apply @addAttribute_value|]. simpl.
    by rewrite new_ParsedElement_name.
  - intros q. unfold parsedSnippet, parsedSnippet_run, lbind, lret, res_getSnippet.
    destruct resource as [|s|r]; simpl; intros Hq;
      repeat (apply elem_of_cons in Hq as [->|Hq]; [eauto|]);
      by apply elem_of_nil in Hq.
Qed.


End SnippetFactory.

Section SnippetAttributes.
Context `{U : Utils}.



End SnippetAttributes.

Section NewElement.
Context `{U : Utils}.

(** X12.  The count a new element gets: a missing or zero count becomes 1, any
    other count is taken as it is.  So the element has a count of at least 1,
    and is repeating exactly when the count exceeds 1, for every node whose
    count is missing or not negative, and for no other node. *)
Theorem new_element_count (node : TreeNode) (syn : string)
    (r : option DataElement) (opts : option (gmap string jsval)) :
  count (new_ParsedElement node syn r opts)
  = match node_count node with
    | Some c => if Z.eqb c 0 then 1%Z else c
    | None => 1%Z
    end
  ∧ (count_ok (new_ParsedElement node syn r opts)
     ↔ ∀ c, node_count node = Some c → (0 ≤ c)%Z).
Proof.
  assert (count (new_ParsedElement node syn r opts)
          = match node_count node with
            | Some c => if Z.eqb c 0 then 1%Z else c
            | None => 1%Z
            end
          ∧ is_repeating (new_ParsedElement node syn r opts)
            = match node_count node with
              | Some c => Z.ltb 1 c
              | None => false
              end) as [Hc Hr].
  { unfold new_ParsedElement. by destruct (node_text node). }
  split; [done|]. unfold count_ok. rewrite Hc, Hr.
  destruct (node_count node) as [c|].
  - destruct (Z.eqb_spec c 0) as [Hc0|Hc0].
    + split; [intros _ c' [= <-]; lia|]. intros _. split; [lia|].
      destruct (Z.ltb_spec 1 c); split; (done || lia).
    + split.
      * intros [Hge _] c' [= <-]. lia.
      * intros Hpos. specialize (Hpos c eq_refl). split; [lia|].
        destruct (Z.ltb_spec 1 c); split; (done || lia).
  - split; [intros _ c' [=]|]. intros _. split; [lia|]. split; [done|lia].
Qed.

End NewElement.

(** ** The tree *)

Lemma addChild_inv (this c : loc) (h h' : Heap) (x : loc) (ex' : ParsedElement) :
  addChild this c h = Some h' → h' !! x = Some ex' →
  ∃ ex, h !! x = Some ex
        ∧ children ex' = children ex ++ (if decide (x = this) then [c] else [])
        ∧ parent ex' = (if decide (x = c) then Some this else parent ex)
        ∧ _content ex' = _content ex
        ∧ _paste_content ex' = _paste_content ex.
Proof.
  unfold addChild.
  destruct (h !! c) as [ec|] eqn:Hc; [|done].
  destruct (<[c:=set_parent (Some this) ec]> h !! this) as [t|] eqn:Ht; [|done].
  intros [= <-].
  destruct (decide (x = this)) as [->|Hxt].
  - rewrite lookup_insert_eq. intros [= <-].
    destruct (decide (this = c)) as [->|Htc].
    + rewrite lookup_insert_eq in Ht. injection Ht as <-. by exists ec.
    + rewrite lookup_insert_ne in Ht by done. by exists t.
  - rewrite lookup_insert_ne by done.
    destruct (decide (x = c)) as [->|Hxc].
    + rewrite lookup_insert_eq. intros [= <-]. exists ec.
      split; [done|]. simpl. by rewrite app_nil_r.
    + rewrite lookup_insert_ne by done. intros Hx. exists ex'.
      split; [done|]. by rewrite app_nil_r.
Qed.

Lemma addChild_keeps (this c : loc) (h h' : Heap) (l : loc) (e : ParsedElement) :
  addChild this c h = Some h' → h !! l = Some e → is_Some (h' !! l).
Proof.
  unfold addChild.
  destruct (h !! c) as [ec|] eqn:Hc; [|done].
  destruct (<[c:=set_parent (Some this) ec]> h !! this) as [t|] eqn:Ht; [|done].
  intros [= <-] Hl.
  destruct (decide (this = l)) as [->|Hnt]; [by rewrite lookup_insert_eq|].
  rewrite lookup_insert_ne by done.
  destruct (decide (c = l)) as [->|Hnc]; [by rewrite lookup_insert_eq|].
  by rewrite lookup_insert_ne.
Qed.

Lemma on_this_inv (f : ParsedElement → ParsedElement) this h h' x ex' :
  on_this f this h = Some h' → h' !! x = Some ex' →
  ∃ ex, h !! x = Some ex ∧ ex' = (if decide (x = this) then f ex else ex).
Proof.
  unfold on_this. destruct (h !! this) as [t|] eqn:Ht; [|done]. intros [= <-].
  destruct (decide (x = this)) as [->|Hne].
  - rewrite lookup_insert_eq. intros [= <-]. by exists t.
  - rewrite lookup_insert_ne by done. intros Hx. by exists ex'.
Qed.

Lemma on_this_keeps (f : ParsedElement → ParsedElement) this h h' l e :
  on_this f this h = Some h' → h !! l = Some e → is_Some (h' !! l).
Proof.
  unfold on_this. destruct (h !! this) as [t|] eqn:Ht; [|done]. intros [= <-] Hl.
  destruct (decide (this = l)) as [->|Hne]; [by rewrite lookup_insert_eq|].
  by rewrite lookup_insert_ne.
Qed.

Section Tree.
Context `{U : Utils} `{G : Global}.

Lemma core_tree e e' :
  core e' = core e →
  children e' = children e ∧ parent e' = parent e
  ∧ _content e' = _content e ∧ _paste_content e' = _paste_content e.
Proof.
  unfold core. intros He. by injection He as _ _ _ _ _ -> -> _ _ -> _ -> _ _.
Qed.

Lemma perform_keeps c h h' l e :
  perform c h = Some h' → h !! l = Some e → is_Some (h' !! l).
Proof.
  destruct c; simpl; [apply addChild_keeps | apply on_this_keeps ..].
Qed.

(** What one call may change on an element, read backwards. *)
Lemma perform_inv c h h' x ex' :
  perform c h = Some h' → h' !! x = Some ex' →
  ∃ ex, h !! x = Some ex
        ∧ (∃ k, children ex' = children ex ++ k)
        ∧ (parent ex' = parent ex
           ∨ ∃ p, c = CallAddChild p x ∧ parent ex' = Some p)
        ∧ (is_setContent_on x c = false → _content ex' = _content ex)
        ∧ (is_setPasteContent_on x c = false →
           _paste_content ex' = _paste_content ex).
Proof.
  assert (∀ f this,
            (∀ y, children (f y) = children y ∧ parent (f y) = parent y) →
            on_this f this h = Some h' → h' !! x = Some ex' →
            ∃ ex, h !! x = Some ex
                  ∧ (∃ k, children ex' = children ex ++ k)
                  ∧ parent ex' = parent ex
                  ∧ ex' = (if decide (x = this) then f ex else ex)) as Hon.
  { intros f this Hf Hrun Hx.
    destruct (on_this_inv f this h h' x ex' Hrun Hx) as (ex & Hex & ->).
    exists ex. split; [done|].
    destruct (decide (x = this)); [|by split; [exists []; rewrite app_nil_r|]].
    destruct (Hf ex) as [-> ->]. by split; [exists []; rewrite app_nil_r|]. }
  destruct c as [this c|this n v|this src|this data|this val]; simpl.
  - intros Hadd Hx.
    destruct (addChild_inv this c h h' x ex' Hadd Hx) as (ex & Hex & Hch & Hp & Hc & Hpc).
    exists ex. split; [done|]. split; [eauto|]. split; [|done].
    destruct (decide (x = c)) as [->|]; [right; eauto|by left].
  - intros Hrun Hx.
    destruct (Hon (addAttribute n v) this) as (ex & Hex & Hch & Hp & ->); [|done|done|].
    { intros y. by destruct (core_tree y _ (addAttribute_core n v y)) as (-> & -> & _). }
    exists ex. split; [done|]. split; [done|]. split; [by left|].
    destruct (core_tree ex _ (addAttribute_core n v ex)) as (_ & _ & Hc & Hpc).
    by destruct (decide (x = this)).
  - intros Hrun Hx.
    destruct (Hon (copyAttributes src) this) as (ex & Hex & Hch & Hp & ->); [|done|done|].
    { intros y. by destruct (core_tree y _ (copyAttributes_core src y)) as (-> & -> & _). }
    exists ex. split; [done|]. split; [done|]. split; [by left|].
    destruct (core_tree ex _ (copyAttributes_core src ex)) as (_ & _ & Hc & Hpc).
    by destruct (decide (x = this)).
  - intros Hrun Hx.
    destruct (Hon (setContent data) this) as (ex & Hex & Hch & Hp & ->); [|done|done|].
    { intros y. by destruct data. }
    exists ex. split; [done|]. split; [done|]. split; [by left|].
    destruct (decide (x = this)) as [->|Hne].
    + rewrite Nat.eqb_refl. split; [done|]. intros _. by destruct data.
    + done.
  - intros Hrun Hx.
    destruct (Hon (setPasteContent val) this) as (ex & Hex & Hch & Hp & ->); [|done|done|].
    { by intros y. }
    exists ex. split; [done|]. split; [done|]. split; [by left|].
    destruct (decide (x = this)) as [->|Hne].
    + rewrite Nat.eqb_refl. by split.
    + done.
Qed.

Lemma perform_parents_listed c h h' :
  parents_listed h → perform c h = Some h' → parents_listed h'.
Proof.
  intros Hh Hc x ex' p Hx Hp.
  destruct (perform_inv c h h' x ex' Hc Hx) as (ex & Hex & _ & Hpar & _).
  destruct Hpar as [Hsame|(q & -> & Hq)].
  - rewrite Hsame in Hp. destruct (Hh x ex p Hex Hp) as (ep & Hep & Hin).
    destruct (perform_keeps c h h' p ep Hc Hep) as [ep' Hep'].
    destruct (perform_inv c h h' p ep' Hc Hep') as (ep0 & Hep0 & [k Hk] & _).
    assert (ep0 = ep) as -> by congruence.
    exists ep'. split; [done|]. rewrite Hk. apply elem_of_app. by left.
  - assert (q = p) as -> by congruence. simpl in Hc.
    unfold addChild in Hc.
    destruct (h !! x) as [ec|]; [|done].
    destruct (<[x:=set_parent (Some p) ec]> h !! p) as [t|]; [|done].
    injection Hc as <-. rewrite lookup_insert_eq. eexists. split; [done|].
    simpl. apply elem_of_app. right. by left.
Qed.

(** X15.  [addChild] does not take the child away from where it was: a child
    of one element that is added to another stays among the children of the
    first, while its parent pointer now names the second. *)
Theorem addChild_leaves_old_entry (p1 p2 c : loc) (h h' : Heap)
    (e1 : ParsedElement) :
  h !! p1 = Some e1 → c ∈ children e1 → p1 ≠ p2 →
  addChild p2 c h = Some h' →
  ∃ e1' ec', h' !! p1 = Some e1' ∧ c ∈ children e1'
             ∧ h' !! c = Some ec' ∧ parent ec' = Some p2.
Proof.
  intros H1 Hin Hne Hadd.
  destruct (addChild_keeps p2 c h h' p1 e1 Hadd H1) as [e1' H1'].
  destruct (addChild_inv p2 c h h' p1 e1' Hadd H1') as (e0 & H0 & Hch & _).
  assert (e0 = e1) as -> by congruence.
  assert (is_Some (h !! c)) as [ec Hc].
  { unfold addChild in Hadd. by destruct (h !! c). }
  destruct (addChild_keeps p2 c h h' c ec Hadd Hc) as [ec' Hc'].
  destruct (addChild_inv p2 c h h' c ec' Hadd Hc') as (ec0 & _ & _ & Hp & _).
  rewrite decide_True in Hp by done.
  exists e1', ec'. split; [done|]. split; [|done].
  rewrite Hch. apply elem_of_app. by left.
Qed.

End Tree.

Section TreeCalls.
Context `{U : Utils}.

(** X13.  Children are only ever appended: after any sequence of calls, the
    children of every element are the ones it had, in the same order,
    followed by those added since; none is removed and none moves. *)
Theorem calls_only_append_children `{G : Global} (cs : list Call) (h h' : Heap)
    (l : loc) (e : ParsedElement) :
  perform_all cs h = Some h' → h !! l = Some e →
  ∃ e' k, h' !! l = Some e' ∧ children e' = children e ++ k.
Proof.
  intros Hrun Hl. revert Hrun.
  refine (perform_all_keeps
            (λ x, ∃ e' k, x !! l = Some e' ∧ children e' = children e ++ k)
            _ cs G h h' _); [|exists e, []; by rewrite app_nil_r].
  intros G' c x x' (e1 & k1 & Hl1 & Hk1) Hc.
  destruct (@perform_keeps U G' c x x' l e1 Hc Hl1) as [e2 Hl2].
  destruct (@perform_inv U G' c x x' l e2 Hc Hl2) as (e0 & Hl0 & [k2 Hk2] & _).
  assert (e0 = e1) as -> by congruence.
  exists e2, (k1 ++ k2). split; [done|]. by rewrite Hk2, Hk1, app_assoc.
Qed.

(** X14.  A parent pointer is always backed by an entry: if every element
    that names a parent is among that parent's children, the same holds after
    any sequence of calls. *)
Theorem calls_keep_parents_listed `{G : Global} (cs : list Call) (h h' : Heap) :
  parents_listed h → perform_all cs h = Some h' → parents_listed h'.
Proof.
  apply (perform_all_keeps parents_listed).
  intros G' c x x'. apply (@perform_parents_listed U G').
Qed.

(** X18.  Content and paste content have one writer each: a sequence of calls
    without [setContent] on an element leaves its content as it was, and one
    without [setPasteContent] on it leaves its paste content as it was,
    whatever else is called on it or on other elements. *)
Theorem content_has_one_writer `{G : Global} (cs : list Call) (h h' : Heap)
    (l : loc) (e : ParsedElement) :
  perform_all cs h = Some h' → h !! l = Some e →
  ∃ e', h' !! l = Some e'
        ∧ (Forall (λ c, is_setContent_on l c = false) cs →
           _content e' = _content e)
        ∧ (Forall (λ c, is_setPasteContent_on l c = false) cs →
           getPasteContent e' = getPasteContent e).
Proof.
  revert G h e. induction cs as [|c cs IH]; intros G h e; simpl.
  - intros [= <-] Hl. by exists e.
  - destruct (perform c h) as [h1|] eqn:Hc; [|done]. intros Hrun Hl.
    destruct (perform_keeps c h h1 l e Hc Hl) as [e1 Hl1].
    destruct (perform_inv c h h1 l e1 Hc Hl1) as (e0 & Hl0 & _ & _ & Hcont & Hpaste).
    assert (e0 = e) as -> by congruence.
    destruct (IH _ h1 e1 Hrun Hl1) as (e' & Hl' & Hc' & Hp').
    exists e'. split; [done|]. split.
    + intros Hall. apply Forall_cons in Hall as [H1 Hrest].
      rewrite (Hc' Hrest). by apply Hcont.
    + intros Hall. apply Forall_cons in Hall as [H1 Hrest].
      rewrite (Hp' Hrest). unfold getPasteContent. by apply Hpaste.
Qed.

End TreeCalls.

Lemma calls_only_append_children_witness :
  ∃ e' k, Samples.fork !! 0 = Some e'
          ∧ children e' = children Samples.div ++ k.
Proof.
  apply (@calls_only_append_children Samples.utils pristine
           [CallAddChild 0 1; CallAddChild 0 2; CallAddChild 1 3]
           Samples.four Samples.fork 0 Samples.div);
    reflexivity.
Defined.

Lemma parents_listed_singleton `{U : Utils} l node syn r opts :
  parents_listed (<[l := new_ParsedElement node syn r opts]> ∅).
Proof.
  intros c ec p. destruct (decide (l = c)) as [->|Hne].
  - rewrite lookup_insert_eq. intros [= <-].
    unfold new_ParsedElement. by destruct (node_text node).
  - by rewrite lookup_insert_ne, lookup_empty.
Qed.

Lemma calls_keep_parents_listed_witness :
  parents_listed
    (Samples.after (@perform_all Samples.utils pristine Samples.li_calls Samples.li_store)).
Proof.
  apply (@calls_keep_parents_listed Samples.utils pristine Samples.li_calls Samples.li_store);
    [apply parents_listed_singleton | reflexivity].
Defined.

Lemma addChild_leaves_old_entry_witness :
  ∃ e1' ec', Samples.after (addChild 3 2 Samples.fork) !! 0 = Some e1'
             ∧ 2 ∈ children e1'
             ∧ Samples.after (addChild 3 2 Samples.fork) !! 2 = Some ec'
             ∧ parent ec' = Some 3.
Proof.
  apply (addChild_leaves_old_entry 0 3 2 Samples.fork
           (Samples.after (addChild 3 2 Samples.fork))
           (default Samples.div (Samples.fork !! 0)));
    [reflexivity | vm_compute; right; left | discriminate | reflexivity].
Defined.

Lemma content_has_one_writer_witness :
  ∃ e', Samples.after (@perform_all Samples.utils pristine Samples.text_calls Samples.text_store)
          !! 0 = Some e'
        ∧ _content e' = Literal "t".
Proof.
  destruct (@content_has_one_writer Samples.utils pristine Samples.text_calls
              Samples.text_store
              (Samples.after
                 (@perform_all Samples.utils pristine Samples.text_calls Samples.text_store))
              0 (@setContent Samples.utils (JStr "t") Samples.div)
              eq_refl eq_refl) as (e' & He' & Hc & _).
  exists e'. split; [exact He'|].
  apply Hc. repeat constructor.
Defined.

(** ** Cycles and the deepest child *)

Lemma deepest_loop_steps (h : Heap) (n : nat) (a b : loc) :
  follows_last h n a b → ∀ k, deepest_loop (n + k) h a = deepest_loop k h b.
Proof.
  induction 1 as [a|n a e c d He Hlast _ IH]; intros k; [done|].
  simpl. by rewrite He, Hlast.
Qed.

Lemma deepest_loop_short (h : Heap) (n : nat) (a b : loc) :
  follows_last h n a b → ∀ fuel, (fuel ≤ n)%nat → deepest_loop fuel h a = OutOfFuel.
Proof.
  induction 1 as [a|n a e c d He Hlast _ IH]; intros fuel Hfuel.
  - by replace fuel with 0 by lia.
  - destruct fuel as [|fuel]; [done|]. simpl. rewrite He, Hlast.
    apply IH. lia.
Qed.

(** X16.  There is no guard against cycles: when the walk along last children
    from an element comes back to that element, as after an element is added
    as its own child, [findDeepestChild] on it never returns. *)
Theorem findDeepestChild_cycle_diverges (h : Heap) (this : loc) (n : nat) :
  follows_last h (S n) this this →
  ∀ fuel, findDeepestChild fuel this h = OutOfFuel.
Proof.
  intros Hcycle.
  assert (∀ fuel, deepest_loop fuel h this = OutOfFuel) as Hloop.
  { intros fuel. induction (lt_wf fuel) as [fuel _ IH].
    destruct (decide (fuel ≤ S n)%nat) as [Hle|Hgt].
    - by apply (deepest_loop_short h (S n) this this).
    - replace fuel with (S n + (fuel - S n)) by lia.
      rewrite (deepest_loop_steps h (S n) this this Hcycle).
      apply IH. lia. }
  intros fuel. unfold findDeepestChild.
  inversion Hcycle as [|? ? e c ? He Hlast _]; subst.
  rewrite He. destruct (children e) as [|x l]; [done|]. simpl.
  by rewrite Hloop.
Qed.

Lemma findDeepestChild_cycle_diverges_witness :
  findDeepestChild 100 0 Samples.loop = OutOfFuel.
Proof.
  apply (findDeepestChild_cycle_diverges Samples.loop 0 0).
  apply (follows_step Samples.loop 0 0 (default Samples.div (Samples.loop !! 0)) 0 0);
    [reflexivity | reflexivity | constructor].
Defined.

(** X17.  [findDeepestChild] answers null exactly for an element without
    children ([hasChildren] false).  Any other answer is an element that has
    no children itself, and is never the element the search started from. *)
Theorem findDeepestChild_answer (h : Heap) (this : loc) (e : ParsedElement)
    (fuel : nat) :
  h !! this = Some e →
  (findDeepestChild fuel this h = Done None ↔ hasChildren e = false)
  ∧ (∀ d, findDeepestChild fuel this h = Done (Some d) →
          childless h d ∧ d ≠ this ∧ hasChildren e = true).
Proof.
  intros He. unfold findDeepestChild, hasChildren. rewrite He.
  destruct (children e) as [|x l] eqn:Hch; simpl.
  - split; [done|]. intros d [=].
  - split.
    + split; [|done]. by destruct (deepest_loop fuel h this).
    + intros d Hd.
      destruct (deepest_loop fuel h this) as [d'| |] eqn:Hrun; try done.
      injection Hd as ->.
      destruct (deepest_loop_sound h fuel this d Hrun) as [(ed & Hed & Hleaf) _].
      split; [by exists ed|]. split; [|done].
      intros ->. congruence.
Qed.

Lemma findDeepestChild_answer_witness :
  childless Samples.chain 3 ∧ 3 ≠ 0.
Proof.
  destruct (findDeepestChild_answer Samples.chain 0 Samples.chain_root 4 eq_refl)
    as [_ H].
  destruct (H 3 eq_refl) as (Hleaf & Hne & _).
  split; [exact Hleaf | exact Hne].
Defined.

(** ** The legacy key *)

Section LegacyKey.
Context `{U : Utils} `{G : Global}.

(** X19.  The key [__proto__] reaches [Object.prototype]: a call
    [addAttribute("__proto__", v)] adds nothing to the element but gives
    [Object.prototype] a [value], and from then on [addAttribute("value", w)]
    on an element without a value attribute, this one or any other, adds
    nothing either; in a global state where [Object.prototype] has no
    [value], the same call appends the attribute. *)
Theorem proto_write_hides_value (e e' : ParsedElement) (v w : option string) :
  attrs_ok e → attrs_ok e' →
  attrs_named "__proto__" e = [] → attrs_named "value" e' = [] →
  attrs_of (addAttribute "__proto__" v e) = attrs_of e
  ∧ addAttribute_global "__proto__" v e = {| proto_value := Some (escaped v) |}
  ∧ attrs_of (@addAttribute U (addAttribute_global "__proto__" v e) "value" w e')
    = attrs_of e'
  ∧ (polluted = false →
     attrs_of (addAttribute "value" w e')
     = attrs_of e' ++ [mkAttr "value" (escaped w)]).
Proof.
  intros Hok Hok' Hproto Hvalue.
  pose proof (attrs_named_nil e _ Hok Hproto) as Hn.
  pose proof (attrs_named_nil e' _ Hok' Hvalue) as Hn'.
  assert (addAttribute_global "__proto__" v e
          = {| proto_value := Some (escaped v) |}) as Hglobal.
  { unfold addAttribute_global, addAttribute_run.
    fold (hash_of e). by rewrite Hn. }
  split; [|split; [done|split]].
  - by destruct (addAttribute_inherited e "__proto__" v Hn eq_refl) as [-> _].
  - rewrite Hglobal.
    by destruct (@addAttribute_inherited U {| proto_value := Some (escaped v) |}
                   e' "value" w Hn' eq_refl) as [-> _].
  - intros Hclean.
    destruct (addAttribute_new e' "value" w Hn') as [-> _]; [|done].
    unfold inherited. by rewrite Hclean.
Qed.

End LegacyKey.

Lemma proto_write_hides_value_witness :
  attrs_of
    (@addAttribute Samples.utils
       (@addAttribute_global Samples.utils pristine "__proto__" (Some "x") Samples.div)
       "value" (Some "y") Samples.div)
  = [].
Proof.
  apply (@proto_write_hides_value Samples.utils pristine Samples.div Samples.div
           (Some "x") (Some "y"));
    [apply new_ParsedElement_attrs_ok | apply new_ParsedElement_attrs_ok
    | reflexivity | reflexivity].
Defined.

